(** * rxd: service contexts, state watches, the intracom topic and
      the continuous service manager

    A shallow embedding of the parts of the [rxd] daemon framework that its
    specification makes claims about:

    - [service_context.go]: [serviceContext], [newServiceContextWithCancel],
      [WithParent], [WithFields], [Log], and the per-snapshot bodies of the
      [WatchAllServices] and [WatchAllStates] goroutines;
    - [intracom/topic.go]: [Subscribe], [Unsubscribe], [Close];
    - [service_manager.go]: [RunContinuousManager.Manage].

    Go maps are [gmap]s, Go slices are lists (only their contents matter
    here), a Go [error] is a value of an error type together with the
    message the source builds for it, and the callbacks of a user's runner
    are functions over an abstract runner state that either return (with or
    without an error) or panic. *)

From stdpp Require Import gmap strings list.

(** ** States, policies, actions, filters *)

(** Modelled from the spec: the declaration of [State] used by the manager
    (constants [StateInit] .. [StateExit]) is not among the sources; the
    spec gives it as the sum type over Init, Idle, Run, Stop, Exit. *)
Inductive State := StateInit | StateIdle | StateRun | StateStop | StateExit.

#[global] Instance State_eq_dec : EqDecision State.
Proof. solve_decision. Defined.

(** [service_options.go]: the three run policies. *)
Inductive RunPolicy :=
  | RunUntilStoppedPolicy
  | RunOnceIfSuccessPolicy
  | RunOncePolicy.

#[global] Instance RunPolicy_eq_dec : EqDecision RunPolicy.
Proof. solve_decision. Defined.

(** [ServiceOpts]; its field is [RunPolicy] in the source. *)
Record ServiceOpts := { so_RunPolicy : RunPolicy }.

(** Modelled from the spec: [ServiceAction] is declared outside the sources.
    The spec names [Entering] and [Exiting]; the watch's [switch] has a
    [default] branch for every other value of the type, which
    [OtherAction] stands for. *)
Inductive ServiceAction := Entering | Exiting | OtherAction (code : nat).

(** Modelled from the spec: [ServiceFilter] is declared outside the sources;
    the spec gives [{ Mode: Include|Exclude|None, Names: set<string> }]. *)
Module FilterMode.
Inductive t := None | Include | Exclude.
End FilterMode.

#[global] Instance FilterMode_eq_dec : EqDecision FilterMode.t.
Proof. solve_decision. Defined.

Record ServiceFilter := {
  Mode : FilterMode.t;
  Names : gset string
}.

(** [ServiceStates] is [map[string]State]. *)
Abbreviation ServiceStates := (gmap string State).

(** ** Log records *)

(** Package [log]: a [Field] is a pair of strings, [log.String k v] builds
    one, and a [Level] is an [int8] on the ladder counted from
    [LevelEmergency] = 0 ([LevelError] is 3, [LevelInfo] is 6). *)
Record Field := { Key : string; Value : string }.

#[global] Instance Field_eq_dec : EqDecision Field.
Proof. solve_decision. Defined.

Definition log_String (k v : string) : Field := {| Key := k; Value := v |}.

Definition Level := Z.
Definition LevelError : Level := 3%Z.
Definition LevelInfo : Level := 6%Z.

Record DaemonLog := {
  log_Name : string;
  log_Level : Level;
  log_Message : string;
  log_Fields : list Field
}.

(** ** Service context ([service_context.go]) *)

(** A [context.Context] is known here only by its place in the tree of
    cancellation scopes: a root, or the child that [context.WithCancel]
    derives from a parent. *)
Inductive Context :=
  | ctxRoot (id : nat)
  | ctxWithCancel (parent : Context).

#[global] Instance Context_eq_dec : EqDecision Context.
Proof. solve_decision. Defined.

(** Channels and topics are handles. *)
Definition chan := nat.
Definition TopicHandle := nat.

Record serviceContext := {
  sc_Context : Context;
  name : string;
  fields : list Field;
  logC : chan;
  icStates : TopicHandle
}.

(** [newServiceContextWithCancel]: the second component is the scope that
    the returned [cancel] function cancels. *)
Definition newServiceContextWithCancel
    (parent : Context) (name : string) (logC : chan) (icStates : TopicHandle)
  : serviceContext * Context :=
  let ctx := ctxWithCancel parent in
  let fields := [] in
  let fields := if decide (name ≠ "") then fields ++ [log_String "service" name]
                else fields in
  ({| sc_Context := ctx;
      name := name;
      fields := fields ++ fields;
      logC := logC;
      icStates := icStates |}, ctx).

Definition WithParent (sc : serviceContext) (parent : Context) : serviceContext :=
  {| sc_Context := parent;
     name := name sc;
     fields := fields sc;
     logC := logC sc;
     icStates := icStates sc |}.



(** [Log] sends one record on [sc.logC]; the record is the result. *)
Definition Log (sc : serviceContext) (level : Level) (message : string)
    (fs : list Field) : DaemonLog :=
  {| log_Name := name sc;
     log_Level := level;
     log_Message := message;
     log_Fields := fs ++ fields sc |}.

(** ** Watches ([service_context.go]) *)

(** The body of the [for _, name := range services] loop of
    [WatchAllServices]: one name, against the snapshot just received. *)
Definition interested (action : ServiceAction) (target : State)
    (states : ServiceStates) (acc : ServiceStates) (name : string)
  : ServiceStates :=
  match action with
  | Entering =>
      match states !! name with
      | Some val => if decide (val = target) then <[name := val]> acc else acc
      | None => acc
      end
  | Exiting =>
      match states !! name with
      | Some val => if decide (val ≠ target) then <[name := val]> acc else acc
      | None => acc
      end
  | OtherAction _ => acc
  end.

(** What the [WatchAllServices] goroutine does with one snapshot read from
    its subscription: [Some m] when it sends [m] on the watch's channel,
    [None] when it sends nothing. *)
Definition WatchAllServices_recv (action : ServiceAction) (target : State)
    (services : list string) (states : ServiceStates) : option ServiceStates :=
  let interestedServices := foldl (interested action target states) ∅ services in
  if decide (size interestedServices = length services)
  then Some interestedServices
  else None.

(** The goroutine over the snapshots it receives while neither the watch nor
    the subscription is cancelled: the snapshots it sends, in order. *)
Definition WatchAllServices (action : ServiceAction) (target : State)
    (services : list string) (delivered : list ServiceStates)
  : list ServiceStates :=
  omap (WatchAllServices_recv action target services) delivered.

(** What the [WatchAllStates] goroutine sends for one snapshot. *)
Definition WatchAllStates_recv (filter_ : ServiceFilter) (states : ServiceStates)
  : ServiceStates :=
  if decide (size (Names filter_) = 0 ∨ Mode filter_ = FilterMode.None)
  then states
  else
    match Mode filter_ with
    | FilterMode.Include => filter (λ kv, kv.1 ∈ Names filter_) states
    | FilterMode.Exclude => filter (λ kv, kv.1 ∉ Names filter_) states
    | FilterMode.None => ∅
    end.

Definition WatchAllStates (filter_ : ServiceFilter)
    (delivered : list ServiceStates) : list ServiceStates :=
  map (WatchAllStates_recv filter_) delivered.

(** ** The intracom topic ([intracom/topic.go]) *)

Module intracom.

(** Modelled from the spec: [BufferPolicy] is declared outside the sources;
    the spec gives DropOldest, DropNewest and Block. *)
Inductive BufferPolicy := DropOldest | DropNewest | Block.

(** Modelled from the spec: [SubscriberConfig] is declared outside the
    sources; the spec gives [{ ConsumerGroup, ErrIfExists, BufferSize,
    BufferPolicy }]. *)
Record SubscriberConfig := {
  ConsumerGroup : string;
  ErrIfExists : bool;
  BufferSize : Z;
  BufferPolicy_ : BufferPolicy
}.

(** Modelled from the spec: the [subscriber] type, with [newSubscriber] and
    [close], is outside the sources. A subscriber owns one delivery channel,
    made with it and closed by [close]. *)
Record subscriber := {
  ch : chan;
  conf : SubscriberConfig
}.

(** The topic: its map of subscribers and its [closed] flag, with the
    channels it has made ([nextChan] is the next fresh channel, [closedChans]
    the channels closed so far). The operations are taken one at a time, as
    the mutex and the atomic flag let them run. *)
Record topic := {
  subscribers : gmap string subscriber;
  closed : bool;
  nextChan : chan;
  closedChans : gset chan
}.

(** The errors of the three operations; [Error] is the message that the
    source passes to [errors.New]. *)
Inductive error :=
  | TopicClosed (operation : string)
  | GroupExists (consumer : string)
  | GroupUnknown (consumer : string)
  | AlreadyClosed.

Definition Error (e : error) : string :=
  match e with
  | TopicClosed op => "cannot " +:+ op +:+ ", topic already closed"
  | GroupExists g => "consumer group '" +:+ g +:+ " already exists"
  | GroupUnknown g => "consumer group '" +:+ g +:+ "' does not exist"
  | AlreadyClosed => "topic already closed"
  end.

(** [newTopic]: no subscriber, not closed. *)
Definition newTopic : topic :=
  {| subscribers := ∅; closed := false; nextChan := 0; closedChans := ∅ |}.

(** [Subscribe]: the channel of the group, or the error. *)
Definition Subscribe (cfg : SubscriberConfig) (t : topic)
  : (chan + error) * topic :=
  if closed t then (inr (TopicClosed "subscribe"), t)
  else
    match subscribers t !! ConsumerGroup cfg with
    | Some sub =>
        if ErrIfExists cfg
        then (inr (GroupExists (ConsumerGroup cfg)), t)
        else (inl (ch sub), t)
    | None =>
        let sub := {| ch := nextChan t; conf := cfg |} in
        (inl (ch sub),
         {| subscribers := <[ConsumerGroup cfg := sub]> (subscribers t);
            closed := closed t;
            nextChan := S (nextChan t);
            closedChans := closedChans t |})
    end.

(** [Unsubscribe]: the subscriber is closed and deleted. *)
Definition Unsubscribe (consumer : string) (t : topic)
  : option error * topic :=
  if closed t then (Some (TopicClosed "unsubscribe"), t)
  else
    match subscribers t !! consumer with
    | None => (Some (GroupUnknown consumer), t)
    | Some sub =>
        (None,
         {| subscribers := delete consumer (subscribers t);
            closed := closed t;
            nextChan := nextChan t;
            closedChans := {[ch sub]} ∪ closedChans t |})
    end.

(** [Close]: [closed.Swap(true)] answers the old flag; every subscriber is
    then closed and removed. *)
Definition Close (t : topic) : option error * topic :=
  if closed t then (Some AlreadyClosed, t)
  else
    (None,
     {| subscribers := ∅;
        closed := true;
        nextChan := nextChan t;
        closedChans :=
          map_fold (λ _ sub acc, {[ch sub]} ∪ acc) (closedChans t)
                   (subscribers t) |}).

(** Every channel held by a subscriber was made before [nextChan]. *)
Definition wf (t : topic) : Prop :=
  ∀ g sub, subscribers t !! g = Some sub → ch sub < nextChan t.

End intracom.

(** ** The continuous manager ([service_manager.go]) *)

#[global] Instance State_countable : Countable State.
Proof.
  refine (inj_countable'
            (λ s, match s with
                  | StateInit => 0 | StateIdle => 1 | StateRun => 2
                  | StateStop => 3 | StateExit => 4
                  end)
            (λ n, match n with
                  | 0 => StateInit | 1 => StateIdle | 2 => StateRun
                  | 3 => StateStop | _ => StateExit
                  end) _).
  by intros [].
Defined.

(** Durations are nanoseconds. *)
Definition Duration := Z.

Record RunContinuousManager := {
  DefaultDelay : Duration;
  StartupDelay : Duration;
  StateTimeouts : gmap State Duration
}.

(** [NewDefaultManager] without options. *)
Definition NewDefaultManager : RunContinuousManager :=
  {| DefaultDelay := 0%Z; StartupDelay := 10%Z; StateTimeouts := ∅ |}.

(** A callback of the user's runner either returns, with [nil] or an error
    (its message), or panics (with the rendering of the panic value). *)
Inductive outcome :=
  | Returns (err : option string)
  | Panics (v : string).

(** The runner: four callbacks over the runner's own state [R]. *)
Record ServiceRunner (R : Type) := {
  Init : R → outcome * R;
  Idle : R → outcome * R;
  Run : R → outcome * R;
  Stop : R → outcome * R
}.
Arguments Init {R}. Arguments Idle {R}. Arguments Run {R}. Arguments Stop {R}.

(** Modelled from the spec: [DaemonService] is declared outside the sources;
    the spec gives [{ Name, Runner, Manager, Options }]. The manager is the
    receiver of [Manage] below. *)
Record DaemonService (R : Type) := {
  ds_Name : string;
  Runner : ServiceRunner R;
  Options : ServiceOpts
}.
Arguments ds_Name {R}. Arguments Runner {R}. Arguments Options {R}.

(** Which case of the [select] at the top of the loop body is taken: the
    context is done, or the transition timer has fired. When each case is
    ready is a matter of time and of the other tasks; a schedule lists the
    cases taken, pass after pass. *)
Inductive selected := ctxDone | timeoutC.

Inductive callback := CbInit | CbIdle | CbRun | CbStop.

#[global] Instance callback_eq_dec : EqDecision callback.
Proof. solve_decision. Defined.

Definition stateOf (cb : callback) : State :=
  match cb with
  | CbInit => StateInit
  | CbIdle => StateIdle
  | CbRun => StateRun
  | CbStop => StateStop
  end.

(** What the manager does, in order: calls of [updateState], calls of the
    runner's callbacks, records sent through [sctx.Log], and what it does to
    its timer. *)
Inductive event :=
  | updateState (service : string) (state : State)
  | invoke (cb : callback)
  | logSend (l : DaemonLog)
  | timerNew (d : Duration)
  | timerReset (d : Duration)
  | timerStop.

(** One pass through the loop body: the next values of the loop's variables,
    or a panic raised by the callback. *)
Inductive iteration (R : Type) :=
  | Continue (state : State) (hasStopped : bool) (r : R) (evs : list event)
  | Panic (v : string) (evs : list event).
Arguments Continue {R}. Arguments Panic {R}.

(** How the code of [Manage] stops: at its last line, by a panic (which the
    deferred function recovers, so that [Manage] returns all the same), or
    not yet: the schedule, a finite prefix of the choices of the [select],
    is used up while the loop goes on. *)
Inductive ending (R : Type) :=
  | Returned (r : R)
  | Recovered (v : string)
  | Looping (state : State) (hasStopped : bool) (r : R).
Arguments Returned {R}. Arguments Recovered {R}. Arguments Looping {R}.

Section Manage.
Context {R : Type}.
Variable m : RunContinuousManager.
Variable sctx : serviceContext.
Variable ds : DaemonService R.

Definition logError (message : string) : event :=
  logSend (Log sctx LevelError message []).

(** [if err != nil { sctx.Log(log.LevelError, err.Error()) }] *)
Definition errorLog (err : option string) : list event :=
  match err with
  | Some e => [logError e]
  | None => []
  end.

(** The [switch state] of the loop body. *)
Definition switchState (state : State) (hasStopped : bool) (r : R)
  : iteration R :=
  match state with
  | StateInit =>
      match Init (Runner ds) r with
      | (Returns (Some err), r') =>
          Continue StateStop hasStopped r' [invoke CbInit; logError err]
      | (Returns None, r') =>
          Continue StateIdle hasStopped r' [invoke CbInit]
      | (Panics v, _) => Panic v [invoke CbInit]
      end
  | StateIdle =>
      match Idle (Runner ds) r with
      | (Returns (Some err), r') =>
          Continue StateStop hasStopped r' [invoke CbIdle; logError err]
      | (Returns None, r') =>
          Continue StateRun hasStopped r' [invoke CbIdle]
      | (Panics v, _) => Panic v [invoke CbIdle]
      end
  | StateRun =>
      match Run (Runner ds) r with
      | (Returns err, r') =>
          Continue StateStop hasStopped r' (invoke CbRun :: errorLog err)
      | (Panics v, _) => Panic v [invoke CbRun]
      end
  | StateStop =>
      match Stop (Runner ds) r with
      | (Returns err, r') =>
          Continue StateInit true r' (invoke CbStop :: errorLog err)
      | (Panics v, _) => Panic v [invoke CbStop]
      end
  | StateExit => Continue state hasStopped r []
  end.

(** The delay before the next state: its own timeout if one is set, the
    default delay otherwise. *)
Definition transitionTimeout (state : State) : Duration :=
  match StateTimeouts m !! state with
  | Some d => d
  | None => DefaultDelay m
  end.

(** The loop body from [state]: report the state, then wait on the
    [select]. *)
Definition body (state : State) (hasStopped : bool) (r : R) (sel : selected)
  : iteration R :=
  let reported := updateState (ds_Name ds) state in
  match sel with
  | ctxDone => Continue StateExit hasStopped r [reported]
  | timeoutC =>
      let hasStopped := if hasStopped then false else hasStopped in
      match switchState state hasStopped r with
      | Continue state' hasStopped' r' evs =>
          Continue state' hasStopped' r'
                   (reported :: evs ++ [timerReset (transitionTimeout state')])
      | Panic v evs => Panic v (reported :: evs)
      end
  end.

(** After the loop: [Stop] unless it has just run, then the final
    [updateState]. *)
Definition afterLoop (hasStopped : bool) (r : R) : list event * ending R :=
  if hasStopped then ([updateState (ds_Name ds) StateExit], Returned r)
  else
    match Stop (Runner ds) r with
    | (Returns err, r') =>
        (invoke CbStop :: errorLog err ++ [updateState (ds_Name ds) StateExit],
         Returned r')
    | (Panics v, _) => ([invoke CbStop], Recovered v)
    end.

(** The loop [for state != StateExit] and what follows it, one choice of
    the [select] per pass. A panic leaves at once. *)
Fixpoint loop (state : State) (hasStopped : bool) (r : R)
    (sched : list selected) : list event * ending R :=
  match state with
  | StateExit => afterLoop hasStopped r
  | _ =>
      match sched with
      | [] => ([], Looping state hasStopped r)
      | sel :: sched' =>
          match body state hasStopped r sel with
          | Continue state' hasStopped' r' evs =>
              let '(tr, e) := loop state' hasStopped' r' sched' in
              (evs ++ tr, e)
          | Panic v evs => (evs, Recovered v)
          end
      end
  end.

(** The deferred calls, last registered first: the timer is stopped, then
    a panic, if there is one, is recovered and logged. Neither runs
    while the loop goes on. *)
Definition deferred (e : ending R) : list event :=
  match e with
  | Returned _ => [timerStop]
  | Recovered v => [timerStop; logError ("recovered from a panic: " +:+ v)]
  | Looping _ _ _ => []
  end.

(** [Manage], from [StateInit] with [hasStopped] false. *)
Definition Manage (r : R) (sched : list selected) : list event * ending R :=
  let '(tr, e) := loop StateInit false r sched in
  (timerNew (StartupDelay m) :: tr ++ deferred e, e).

End Manage.

(** *** Reading a trace *)

(** The states reported through [updateState], in order. *)
Definition reports (tr : list event) : list State :=
  omap (λ e, match e with updateState _ s => Some s | _ => None end) tr.

(** The callbacks invoked, in order. *)
Definition invocations (tr : list event) : list callback :=
  omap (λ e, match e with invoke cb => Some cb | _ => None end) tr.

(** The records logged, in order. *)
Definition logged (tr : list event) : list DaemonLog :=
  omap (λ e, match e with logSend l => Some l | _ => None end) tr.

(** The trace without what is done to the timer. *)
Definition isTimer (e : event) : bool :=
  match e with
  | timerNew _ | timerReset _ | timerStop => true
  | _ => false
  end.

Fixpoint visible (tr : list event) : list event :=
  match tr with
  | [] => []
  | e :: tr' => if isTimer e then visible tr' else e :: visible tr'
  end.

(** Every callback invoked in [tr] comes right after the report of its
    state; [prev] is the event before [tr]. *)
Fixpoint reportedFirst (prev : option event) (tr : list event) : bool :=
  match tr with
  | [] => true
  | e :: tr' =>
      match e with
      | invoke cb =>
          match prev with
          | Some (updateState _ s) => bool_decide (s = stateOf cb)
          | _ => false
          end
      | _ => true
      end && reportedFirst (Some e) tr'
  end.

(** Whether the last callback invoked in [tr] is [Stop]; [before] answers
    when [tr] invokes none. *)
Definition lastStop (before : bool) (tr : list event) : bool :=
  match last (invocations tr) with
  | Some cb => bool_decide (cb = CbStop)
  | None => before
  end.

(** The outcome of the callback that the loop body invokes in a state. *)
Definition outcomeIn {R : Type} (ds : DaemonService R) (state : State) (r : R)
  : option outcome :=
  match state with
  | StateInit => Some (Init (Runner ds) r).1
  | StateIdle => Some (Idle (Runner ds) r).1
  | StateRun => Some (Run (Runner ds) r).1
  | StateStop => Some (Stop (Runner ds) r).1
  | StateExit => None
  end.

(** The result of that callback: its outcome and the runner's next state. *)
Definition resultIn {R : Type} (ds : DaemonService R) (state : State) (r : R)
  : option (outcome * R) :=
  match state with
  | StateInit => Some (Init (Runner ds) r)
  | StateIdle => Some (Idle (Runner ds) r)
  | StateRun => Some (Run (Runner ds) r)
  | StateStop => Some (Stop (Runner ds) r)
  | StateExit => None
  end.

(** *** The table of the specification *)

(** The transition table as the specification gives it: the next state, from
    a state, on whether the context was cancelled and whether the callback
    returned an error. *)
Definition tableNext (from : State) (cancelled : bool) (failed : bool) : State :=
  if cancelled then StateExit
  else
    match from with
    | StateInit => if failed then StateStop else StateIdle
    | StateIdle => if failed then StateStop else StateRun
    | StateRun => StateStop
    | StateStop => StateInit
    | StateExit => StateExit
    end.

(** One state may follow another in the table. *)
Definition tableAllows (from to : State) : bool :=
  match from, to with
  | StateInit, (StateIdle | StateStop | StateExit) => true
  | StateIdle, (StateRun | StateStop | StateExit) => true
  | StateRun, (StateStop | StateExit) => true
  | StateStop, (StateInit | StateExit) => true
  | _, _ => false
  end.

(** A sequence of reported states that starts in [from] and moves along the
    table. *)
Fixpoint followsTable (from : State) (l : list State) : bool :=
  match l with
  | [] => true
  | s :: l' => tableAllows from s && followsTable s l'
  end.

Definition nextState {R : Type} (it : iteration R) : option State :=
  match it with
  | Continue state _ _ _ => Some state
  | Panic _ _ => None
  end.

Definition failed (o : outcome) : bool :=
  match o with
  | Returns (Some _) => true
  | _ => false
  end.

(** The states that the table gives from [state], pass after pass, for the
    cases that the [select] takes: the state is entered; when the
    [sctx.Done()] case is taken the table leads to Exit and the loop is
    over; when the timer's is taken the next state is the one of the table
    for the outcome of the callback, and a panic ends the sequence. *)
Fixpoint tableStates {R : Type} (ds : DaemonService R) (state : State) (r : R)
    (sched : list selected) : list State :=
  match sched with
  | [] => []
  | sel :: sched' =>
      match resultIn ds state r with
      | None => []
      | Some (o, r') =>
          state ::
          match sel, o with
          | ctxDone, _ => []
          | timeoutC, Returns _ =>
              tableStates ds (tableNext state false (failed o)) r' sched'
          | timeoutC, Panics _ => []
          end
      end
  end.

(** *** The [select] and a cancelled context *)

(** What the [select] of the loop finds at the moment it takes a case:
    whether the context is cancelled ([sctx.Done()] is closed) and whether
    the timer has fired ([timeout.C] holds a value). *)
Record ready := { ctxCancelled : bool; timerFired : bool }.

(** A Go [select] takes a case that can proceed; when both can, it takes
    either of them. *)
Definition takes (rd : ready) (sel : selected) : bool :=
  match sel with
  | ctxDone => ctxCancelled rd
  | timeoutC => timerFired rd
  end.

(** A context once cancelled stays cancelled. *)
Fixpoint staysCancelled (before : bool) (l : list ready) : bool :=
  match l with
  | [] => true
  | rd :: l' =>
      implb before (ctxCancelled rd) && staysCancelled (ctxCancelled rd) l'
  end.

(** The passes of a run: what each [select] finds and the case it takes. *)
Definition possible (passes : list (ready * selected)) : bool :=
  forallb (λ p, takes p.1 p.2) passes && staysCancelled false (passes.*1).

(** The last row of the table over a run, as the specification gives it:
    from any state, once the context is cancelled, the next state is Exit.
    [seen] is what the [select] finds pass after pass, [reported] are the
    states reported, one before each [select] and the next after it. *)
Definition cancelledGivesExit (seen : list ready) (reported : list State)
  : Prop :=
  ∀ i rd s, seen !! i = Some rd → ctxCancelled rd = true →
            reported !! (S i) = Some s → s = StateExit.

(** *** The predicate of a watch, in the words of the specification *)

(** [Entering] with target [T]: [states[name] == T]; [Exiting] with target
    [T]: the name is in the snapshot and [states[name] ≠ T]; any other
    action: false. *)
Definition satisfies (action : ServiceAction) (target : State)
    (states : ServiceStates) (name : string) : Prop :=
  match action with
  | Entering => states !! name = Some target
  | Exiting => ∃ val, states !! name = Some val ∧ val ≠ target
  | OtherAction _ => False
  end.

(** The state a name is collected with, if the loop body collects it. *)
Definition found (action : ServiceAction) (target : State)
    (states : ServiceStates) (name : string) : option State :=
  match action with
  | Entering =>
      match states !! name with
      | Some val => if decide (val = target) then Some val else None
      | None => None
      end
  | Exiting =>
      match states !! name with
      | Some val => if decide (val ≠ target) then Some val else None
      | None => None
      end
  | OtherAction _ => None
  end.

(** ** Concrete services and snapshots *)

Definition svcContext : serviceContext :=
  (newServiceContextWithCancel (ctxRoot 0) "svc" 1 2).1.

Definition returnsNil : unit → outcome * unit := λ r, (Returns None, r).

(** Every callback returns [nil]. *)
Definition steadyService : ServiceRunner unit :=
  {| Init := returnsNil; Idle := returnsNil; Run := returnsNil; Stop := returnsNil |}.

(** [mockPanicService] of [service_test.go]: [Run] panics. *)
Definition mockPanicService : ServiceRunner unit :=
  {| Init := returnsNil; Idle := returnsNil;
     Run := λ r, (Panics "intentional panic", r);
     Stop := returnsNil |}.

Definition panicInIdle : ServiceRunner unit :=
  {| Init := returnsNil;
     Idle := λ r, (Panics "idle went wrong", r);
     Run := returnsNil; Stop := returnsNil |}.

Definition panicInStop : ServiceRunner unit :=
  {| Init := returnsNil; Idle := returnsNil; Run := returnsNil;
     Stop := λ r, (Panics "stop went wrong", r) |}.

(** [Run] fails on its first two calls and succeeds from the third on; the
    runner's state counts the calls of [Run]. *)
Definition failsTwice : ServiceRunner nat :=
  {| Init := λ n, (Returns None, n);
     Idle := λ n, (Returns None, n);
     Run := λ n, (if decide (n < 2) then Returns (Some "not yet") else Returns None, S n);
     Stop := λ n, (Returns None, n) |}.

Definition service {R : Type} (rn : ServiceRunner R) (policy : RunPolicy)
  : DaemonService R :=
  {| ds_Name := "svc"; Runner := rn; Options := {| so_RunPolicy := policy |} |}.

(** The timer has fired and the context is not cancelled; both cases of the
    [select] are ready. *)
Definition timerOnly : ready := {| ctxCancelled := false; timerFired := true |}.
Definition bothReady : ready := {| ctxCancelled := true; timerFired := true |}.

(** The context is cancelled while [Init] runs. The second [select] finds
    the context cancelled and the timer, reset with the default delay,
    fired, and takes the timer's case; the third takes [sctx.Done()]. *)
Definition cancelledInInit : list (ready * selected) :=
  [(timerOnly, timeoutC); (bothReady, timeoutC); (bothReady, ctxDone)].

Definition snapshotA : ServiceStates := {[ "a" := StateRun ]}.
Definition snapshotAB : ServiceStates := <[ "b" := StateIdle ]> snapshotA.

Definition includeA : ServiceFilter :=
  {| Mode := FilterMode.Include; Names := {[ "a" ]} |}.

Definition openTopic : intracom.topic :=
  (intracom.Subscribe
     {| intracom.ConsumerGroup := "g"; intracom.ErrIfExists := false;
        intracom.BufferSize := 1; intracom.BufferPolicy_ := intracom.DropOldest |}
     intracom.newTopic).2.

(** ** More of the sources *)

(** *** [WatchAnyServices] ([service_context.go]) *)

(** The body of the [for _, service := range services] loop of
    [WatchAnyServices]; its [switch] has no [default] case, so any other
    action collects nothing. *)
Definition interestedAny (action : ServiceAction) (target : State)
    (states : ServiceStates) (acc : ServiceStates) (service : string)
  : ServiceStates :=
  match action with
  | Entering =>
      match states !! service with
      | Some val => if decide (val = target) then <[service := val]> acc else acc
      | None => acc
      end
  | Exiting =>
      match states !! service with
      | Some val => if decide (val ≠ target) then <[service := val]> acc else acc
      | None => acc
      end
  | OtherAction _ => acc
  end.

(** What the [WatchAnyServices] goroutine does with one snapshot: it sends
    the names collected when there is at least one. *)
Definition WatchAnyServices_recv (action : ServiceAction) (target : State)
    (services : list string) (states : ServiceStates) : option ServiceStates :=
  let interestedServices := foldl (interestedAny action target states) ∅ services in
  if decide (0 < size interestedServices)
  then Some interestedServices
  else None.

Definition WatchAnyServices (action : ServiceAction) (target : State)
    (services : list string) (delivered : list ServiceStates)
  : list ServiceStates :=
  omap (WatchAnyServices_recv action target services) delivered.

(** *** What the topic keeps ([intracom/topic.go]) *)

(** The channels of the groups of a topic are open, each belongs to one
    group only, and every channel, held or closed, was made by the topic. *)
Definition topicInv (t : intracom.topic) : Prop :=
  (∀ g sub, intracom.subscribers t !! g = Some sub →
            intracom.ch sub < intracom.nextChan t ∧
            intracom.ch sub ∉ intracom.closedChans t) ∧
  (∀ g g' sub sub',
      intracom.subscribers t !! g = Some sub →
      intracom.subscribers t !! g' = Some sub' →
      intracom.ch sub = intracom.ch sub' → g = g') ∧
  (∀ c, c ∈ intracom.closedChans t → c < intracom.nextChan t).

(** *** The order of the callbacks ([service_manager.go]) *)

(** The callback that may come after another in one cycle Init, Idle, Run,
    Stop: [Stop] may come after any other callback or first, [Init] first
    or after [Stop], [Idle] after [Init] and [Run] after [Idle]. *)
Definition mayFollow (prev : option callback) (cb : callback) : bool :=
  match prev, cb with
  | None, (CbInit | CbStop) => true
  | Some CbInit, (CbIdle | CbStop) => true
  | Some CbIdle, (CbRun | CbStop) => true
  | Some CbRun, CbStop => true
  | Some CbStop, CbInit => true
  | _, _ => false
  end.

Fixpoint inOrder (prev : option callback) (l : list callback) : bool :=
  match l with
  | [] => true
  | cb :: l' => mayFollow prev cb && inOrder (Some cb) l'
  end.

(** What the loop knows of the last callback invoked: [hasStopped] tells
    whether it was [Stop], and the callback of the state to enter may
    follow it. *)
Definition orderInv (prev : option callback) (state : State)
    (hasStopped : bool) : Prop :=
  hasStopped = bool_decide (prev = Some CbStop) ∧
  (state = StateExit ∨ ∃ cb, stateOf cb = state ∧ mayFollow prev cb = true).

(** A record as the manager logs it: at the error level, with the name and
    the fields of the service context and nothing else. *)
Definition managerRecord (sctx : serviceContext) (l : DaemonLog) : Prop :=
  log_Level l = LevelError ∧ log_Name l = name sctx ∧ log_Fields l = fields sctx.

(** A runner none of whose callbacks ever returns an error or panics. *)
Definition neverFails {R : Type} (rn : ServiceRunner R) : Prop :=
  ∀ r, (Init rn r).1 = Returns None ∧ (Idle rn r).1 = Returns None ∧
       (Run rn r).1 = Returns None ∧ (Stop rn r).1 = Returns None.

(** *** The earlier revision of the service context ([service_context.go]) *)

(** [service_context.go] holds an earlier revision of the functions above.
    A service context used as a [context.Context] stands for its own
    scope. *)
Module earlier.

(** [newServiceContextWithCancel] of that revision: the fields are stored
    once. *)
Definition newServiceContextWithCancel
    (parent : Context) (name : string) (logC : chan) (icStates : TopicHandle)
  : serviceContext * Context :=
  let ctx := ctxWithCancel parent in
  let fields := [] in
  let fields := if decide (name ≠ "") then fields ++ [log_String "service" name]
                else fields in
  ({| sc_Context := ctx;
      name := name;
      logC := logC;
      fields := fields;
      icStates := icStates |}, ctx).




End earlier.

(** *** Log levels ([log] package) *)

Module log.

(** The levels, an [int8] counted from [levelUnknown] = -1. *)
Definition levelUnknown : Level := (-1)%Z.
Definition LevelEmergency : Level := 0%Z.
Definition LevelAlert : Level := 1%Z.
Definition LevelCritical : Level := 2%Z.
Definition LevelWarning : Level := 4%Z.
Definition LevelNotice : Level := 5%Z.
Definition LevelDebug : Level := 7%Z.

(** [Level.String]. *)
Definition Level_String (l : Level) : string :=
  if decide (l = LevelEmergency) then "EMERGENCY"
  else if decide (l = LevelAlert) then "ALERT"
  else if decide (l = LevelCritical) then "CRITICAL"
  else if decide (l = LevelError) then "ERROR"
  else if decide (l = LevelWarning) then "WARNING"
  else if decide (l = LevelNotice) then "NOTICE"
  else if decide (l = LevelInfo) then "INFO"
  else if decide (l = LevelDebug) then "DEBUG"
  else "UNKNOWN".

(** [LevelFromString]; [ToUpper] is [strings.ToUpper] of the Go library. *)
Definition LevelFromString (ToUpper : string → string) (level : string) : Level :=
  let s := ToUpper level in
  if decide (s = "EMERGENCY") then LevelEmergency
  else if decide (s = "ALERT") then LevelAlert
  else if decide (s = "CRITICAL") then LevelCritical
  else if decide (s = "ERROR") then LevelError
  else if decide (s = "WARNING") then LevelWarning
  else if decide (s = "NOTICE") then LevelNotice
  else if decide (s = "INFO") then LevelInfo
  else if decide (s = "DEBUG") then LevelDebug
  else levelUnknown.

(** A level with a name of its own. *)
Definition named (l : Level) : Prop := (0 ≤ l ≤ 7)%Z.

(** [strings.ToUpper] leaves the names of the levels as they are. *)
Definition keepsNames (ToUpper : string → string) : Prop :=
  ∀ l, ToUpper (Level_String l) = Level_String l.

End log.

(** The letters a to z in upper case, every other character kept: what
    [strings.ToUpper] does to a string of ASCII characters. *)
Definition upperAscii (c : Ascii.ascii) : Ascii.ascii :=
  let n := Ascii.nat_of_ascii c in
  if decide (97 ≤ n ≤ 122) then Ascii.ascii_of_nat (n - 32) else c.

Fixpoint ToUpperAscii (s : string) : string :=
  match s with
  | EmptyString => EmptyString
  | String c s' => String (upperAscii c) (ToUpperAscii s')
  end.

(** *** Notify states ([NotifyState]) *)

(** [NotifyState] is a [uint8] counted from [NotifyStateStopped] = 0. *)
Definition NotifyState := nat.
Definition NotifyStateStopped : NotifyState := 0.
Definition NotifyStateStopping : NotifyState := 1.
Definition NotifyStateRestarting : NotifyState := 2.
Definition NotifyStateReloading : NotifyState := 3.
Definition NotifyStateReady : NotifyState := 4.
Definition NotifyStateAlive : NotifyState := 5.

(** [NotifyState.String]. *)
Definition NotifyState_String (s : NotifyState) : string :=
  if decide (s = NotifyStateStopped) then "STOPPED"
  else if decide (s = NotifyStateStopping) then "STOPPING"
  else if decide (s = NotifyStateRestarting) then "RESTARTING"
  else if decide (s = NotifyStateReloading) then "RELOADING"
  else if decide (s = NotifyStateReady) then "READY"
  else if decide (s = NotifyStateAlive) then "ALIVE"
  else "".

(** *** The service configuration ([service_config.go]) *)

Module config.

(** [ServiceConfig]: of its two channels only whether they are closed
    matters here; the options are those of [NewServiceConfig]. *)
Record ServiceConfig := {
  cfg_name : string;
  opts : ServiceOpts;
  ShutdownC : bool;
  StateC : bool;
  isStopped : bool;
  isShutdown : bool
}.

(** [close(c)] on a channel that is closed or not: closing a closed channel
    panics. *)
Definition close (closed : bool) : option bool :=
  if closed then None else Some true.

(** [setIsStopped]. *)
Definition setIsStopped (value : bool) (cfg : ServiceConfig) : ServiceConfig :=
  {| cfg_name := cfg_name cfg; opts := opts cfg;
     ShutdownC := ShutdownC cfg; StateC := StateC cfg;
     isStopped := value; isShutdown := isShutdown cfg |}.

(** [shutdown]: [None] when a [close] panics. *)
Definition shutdown (cfg : ServiceConfig) : option ServiceConfig :=
  if negb (isShutdown cfg) then
    match close (ShutdownC cfg) with
    | None => None
    | Some shutdownC =>
        match close (StateC cfg) with
        | None => None
        | Some stateC =>
            Some {| cfg_name := cfg_name cfg; opts := opts cfg;
                    ShutdownC := shutdownC; StateC := stateC;
                    isStopped := isStopped cfg; isShutdown := true |}
        end
    end
  else Some cfg.

(** [NewServiceConfig]: the options, functions on the options, are applied
    in the order given to the default, which runs until stopped; the channels
    are open. *)
Definition NewServiceConfig (name : string)
    (options : list (ServiceOpts → ServiceOpts)) : ServiceConfig :=
  let opts := {| so_RunPolicy := RunUntilStoppedPolicy |} in
  let opts := foldl (λ o option, option o) opts options in
  {| cfg_name := name; opts := opts;
     ShutdownC := false; StateC := false;
     isStopped := true; isShutdown := false |}.

(** The calls that the manager and the service make on a configuration. *)
Inductive call := callShutdown | callSetIsStopped (value : bool).

#[global] Instance call_eq_dec : EqDecision call.
Proof. solve_decision. Defined.

(** A sequence of calls, one after the other; [None] when one panics. *)
Fixpoint calls (l : list call) (cfg : ServiceConfig) : option ServiceConfig :=
  match l with
  | [] => Some cfg
  | callShutdown :: l' =>
      match shutdown cfg with
      | Some cfg' => calls l' cfg'
      | None => None
      end
  | callSetIsStopped value :: l' => calls l' (setIsStopped value cfg)
  end.

End config.


(** * Properties *)

(** ** Service context *)

Section ContextFacts.






(** With the empty name there is no field at all. *)
Lemma newServiceContext_unnamed parent logC ic :
  fields (newServiceContextWithCancel parent "" logC ic).1 = [].
Proof. reflexivity. Qed.

End ContextFacts.

(** ** Watches *)

Section ListSetFacts.

Lemma size_list_to_set_le (l : list string) :
  size (list_to_set l : gset string) ≤ length l.
Proof.
  induction l as [|x l IH]; [done|].
  rewrite list_to_set_cons; simpl.
  - destruct (decide (x ∈ l)) as [Hin|Hin].
    + rewrite (subseteq_union_1_L {[x]} (list_to_set l)); [lia|].
      apply singleton_subseteq_l. by apply elem_of_list_to_set.
    + rewrite size_union, size_singleton; [lia|].
      apply disjoint_singleton_l. by rewrite elem_of_list_to_set.
Qed.

Lemma size_list_to_set_NoDup (l : list string) :
  size (list_to_set l : gset string) = length l ↔ NoDup l.
Proof.
  split; [|apply size_list_to_set].
  induction l as [|x l IH]; [constructor|].
  rewrite list_to_set_cons; simpl; intros Hsize.
  - pose proof (size_list_to_set_le l) as Hle.
    destruct (decide (x ∈ l)) as [Hin|Hin].
    + rewrite (subseteq_union_1_L {[x]} (list_to_set l)) in Hsize; [lia|].
      apply singleton_subseteq_l. by apply elem_of_list_to_set.
    + rewrite size_union, size_singleton in Hsize.
      * constructor; [done|]. apply IH. lia.
      * apply disjoint_singleton_l. by rewrite elem_of_list_to_set.
Qed.

End ListSetFacts.

Section WatchAllServicesFacts.
Variable action : ServiceAction.
Variable target : State.
Variable states : ServiceStates.

Lemma found_satisfies name :
  is_Some (found action target states name) ↔
  satisfies action target states name.
Proof.
  unfold found, satisfies. destruct action.
  - destruct (states !! name) as [val|]; [|split; [by intros [??]|done]].
    case_decide; subst.
    + split; [done|by eexists].
    + split; [by intros [??]|]. intros [= ->]. done.
  - destruct (states !! name) as [val|].
    + case_decide.
      * split; [by exists val|by eexists].
      * split; [by intros [??]|]. intros (v & [= ->] & ?). done.
    + split; [by intros [??]|]. by intros (v & ? & ?).
  - split; [by intros [??]|done].
Qed.

Lemma found_lookup name val :
  found action target states name = Some val → states !! name = Some val.
Proof.
  unfold found. destruct action; [| |done];
    destruct (states !! name); try done; case_decide; congruence.
Qed.

Lemma interested_found acc name :
  interested action target states acc name =
  match found action target states name with
  | Some val => <[name := val]> acc
  | None => acc
  end.
Proof.
  unfold interested, found. destruct action; [| |done];
    destruct (states !! name); try done; by case_decide.
Qed.

(** What the loop over the names leaves in the map. *)
Lemma collected_lookup (services : list string) (acc : ServiceStates) n :
  foldl (interested action target states) acc services !! n =
  if decide (n ∈ services)
  then match found action target states n with
       | Some val => Some val
       | None => acc !! n
       end
  else acc !! n.
Proof.
  revert acc. induction services as [|x l IH]; intros acc; cbn [foldl].
  - case_decide as Hin; [|done]. by apply elem_of_nil in Hin.
  - rewrite IH, interested_found.
    destruct (decide (n = x)) as [->|Hne].
    + rewrite (decide_True (P := x ∈ x :: l)) by left.
      destruct (found action target states x) as [val|] eqn:Hx.
      * rewrite lookup_insert_eq. by case_decide.
      * by case_decide.
    + assert (n ∈ x :: l ↔ n ∈ l) as Hiff.
      { rewrite elem_of_cons. split; [by intros [?|?]|by right]. }
      assert (∀ val, <[x:=val]> acc !! n = acc !! n) as Hins.
      { intros val. by rewrite lookup_insert_ne. }
      destruct (decide (n ∈ l)) as [Hin|Hin].
      * rewrite decide_True by by apply Hiff.
        destruct (found action target states x); by rewrite ?Hins.
      * rewrite decide_False by by rewrite Hiff.
        destruct (found action target states x); by rewrite ?Hins.
Qed.

Lemma collected_dom (services : list string) :
  dom (foldl (interested action target states) ∅ services) ⊆
  (list_to_set services : gset string).
Proof.
  intros n [val Hn]%elem_of_dom. rewrite collected_lookup in Hn.
  apply elem_of_list_to_set. case_decide; [done|].
  by rewrite lookup_empty in Hn.
Qed.

Lemma collected_dom_all (services : list string) :
  Forall (satisfies action target states) services →
  dom (foldl (interested action target states) ∅ services) =
  (list_to_set services : gset string).
Proof.
  intros Hall. apply set_eq. intros n.
  rewrite elem_of_dom, collected_lookup, elem_of_list_to_set.
  case_decide as Hin.
  - rewrite Forall_forall in Hall.
    destruct (proj2 (found_satisfies n) (Hall n Hin)) as [val Hval].
    rewrite Hval. split; [done|by eexists].
  - rewrite lookup_empty. split; [by intros [??]|done].
Qed.

(** The watch sends exactly when the names are pairwise distinct and each
    of them satisfies the predicate. *)
Lemma WatchAllServices_recv_sends (services : list string) :
  is_Some (WatchAllServices_recv action target services states) ↔
  NoDup services ∧ Forall (satisfies action target states) services.
Proof.
  unfold WatchAllServices_recv.
  set (m := foldl (interested action target states) ∅ services).
  pose proof (collected_dom services) as Hdom. fold m in Hdom.
  pose proof (size_list_to_set_le services) as Hle.
  pose proof (subseteq_size _ _ Hdom) as Hsub.
  rewrite size_dom in Hsub.
  case_decide as Hsize.
  - split; [intros _|by eexists].
    assert (dom m = list_to_set services) as Heq.
    { apply set_subseteq_size_eq; [done|]. rewrite size_dom. lia. }
    split.
    + apply size_list_to_set_NoDup. lia.
    + apply Forall_forall. intros n Hn. apply found_satisfies.
      assert (n ∈ dom m) as [val Hval]%elem_of_dom.
      { rewrite Heq. by apply elem_of_list_to_set. }
      unfold m in Hval. rewrite collected_lookup in Hval.
      rewrite decide_True in Hval by done.
      destruct (found action target states n); [by eexists|].
      by rewrite lookup_empty in Hval.
  - split; [by intros [??]|]. intros [Hnd Hall]. exfalso. apply Hsize.
    rewrite <- size_dom. unfold m. rewrite collected_dom_all by done.
    by apply size_list_to_set.
Qed.

(** What it sends then: the names asked for, each with its state in the
    snapshot. *)
Lemma WatchAllServices_recv_sent (services : list string) out n :
  WatchAllServices_recv action target services states = Some out →
  out !! n = if decide (n ∈ services) then states !! n else None.
Proof.
  intros Hout.
  assert (is_Some (WatchAllServices_recv action target services states))
    as [_ Hall]%WatchAllServices_recv_sends by by eexists.
  unfold WatchAllServices_recv in Hout. case_decide; [|done].
  injection Hout as <-. rewrite collected_lookup.
  case_decide as Hin; [|by rewrite lookup_empty].
  rewrite Forall_forall in Hall.
  destruct (proj2 (found_satisfies n) (Hall n Hin)) as [val Hval].
  rewrite Hval. symmetry. by apply found_lookup.
Qed.

(** With no name asked for, every snapshot yields the empty map. *)
Lemma WatchAllServices_recv_no_names :
  WatchAllServices_recv action target [] states = Some ∅.
Proof. reflexivity. Qed.

End WatchAllServicesFacts.

(** C6: the watch is meant to send exactly when every name satisfies the
    predicate. Asked for the name "a" twice, with "a" in the target state in
    the snapshot, every name satisfies the predicate and yet nothing is
    sent, on this snapshot or on any other ([WatchAllServices_recv_sends]);
    asked for "a" once, the same snapshot is sent. *)
Theorem C6_repeated_name_is_never_sent :
  Forall (satisfies Entering StateRun snapshotA) ["a"; "a"] ∧
  WatchAllServices_recv Entering StateRun ["a"; "a"] snapshotA = None ∧
  WatchAllServices Entering StateRun ["a"; "a"] [snapshotA; snapshotAB] = [] ∧
  WatchAllServices_recv Entering StateRun ["a"] snapshotA = Some snapshotA.
Proof.
  split; [|split; [|split]].
  - by repeat constructor.
  - by vm_compute.
  - by vm_compute.
  - by vm_compute.
Qed.

Section WatchAllStatesFacts.
Variable f : ServiceFilter.
Variable states : ServiceStates.

Lemma WatchAllStates_recv_unfiltered :
  Mode f = FilterMode.None ∨ Names f = ∅ → WatchAllStates_recv f states = states.
Proof.
  intros Hf. unfold WatchAllStates_recv. rewrite decide_True; [done|].
  destruct Hf as [Hmode|Hnames]; [by right|left].
  by rewrite Hnames, size_empty.
Qed.

Lemma WatchAllStates_recv_filtered :
  Names f ≠ ∅ → Mode f ≠ FilterMode.None →
  WatchAllStates_recv f states =
  match Mode f with
  | FilterMode.Include => filter (λ kv, kv.1 ∈ Names f) states
  | FilterMode.Exclude => filter (λ kv, kv.1 ∉ Names f) states
  | FilterMode.None => ∅
  end.
Proof.
  intros Hnames Hmode. unfold WatchAllStates_recv.
  rewrite decide_False; [done|].
  intros [Hsize|?]; [|done]. apply Hnames.
  apply leibniz_equiv. by apply size_empty_iff.
Qed.

Lemma filter_in_lookup (names : gset string) n :
  filter (λ kv : string * State, kv.1 ∈ names) states !! n =
  if decide (n ∈ names) then states !! n else None.
Proof.
  destruct (filter _ states !! n) as [val|] eqn:Hn.
  - apply map_lookup_filter_Some in Hn as [Hn Hin]. simpl in Hin.
    by rewrite decide_True.
  - apply map_lookup_filter_None in Hn as [Hn|Hn].
    + rewrite Hn. by case_decide.
    + case_decide as Hin; [|done].
      destruct (states !! n) as [val|] eqn:Hval; [|done].
      by destruct (Hn val).
Qed.

Lemma filter_out_lookup (names : gset string) n :
  filter (λ kv : string * State, kv.1 ∉ names) states !! n =
  if decide (n ∈ names) then None else states !! n.
Proof.
  destruct (filter _ states !! n) as [val|] eqn:Hn.
  - apply map_lookup_filter_Some in Hn as [Hn Hin]. simpl in Hin.
    by rewrite decide_False.
  - apply map_lookup_filter_None in Hn as [Hn|Hn].
    + rewrite Hn. by case_decide.
    + case_decide as Hin; [done|].
      destruct (states !! n) as [val|] eqn:Hval; [|done].
      by destruct (Hn val).
Qed.

End WatchAllStatesFacts.

(** C7: for every snapshot delivered to a [WatchAllStates(filter)] watch,
    one map is sent: the snapshot itself when the mode is [None] or no name
    is given; with names given, under [Include] exactly the entries whose
    names are among them, and under [Exclude] exactly the entries whose
    names are not. *)
Theorem C7_WatchAllStates_filter (f : ServiceFilter)
    (delivered : list ServiceStates) (i : nat) (states : ServiceStates) :
  delivered !! i = Some states →
  ∃ out, WatchAllStates f delivered !! i = Some out ∧
    (Mode f = FilterMode.None ∨ Names f = ∅ → out = states) ∧
    (Mode f = FilterMode.Include → Names f ≠ ∅ →
       ∀ n, out !! n = if decide (n ∈ Names f) then states !! n else None) ∧
    (Mode f = FilterMode.Exclude →
       ∀ n, out !! n = if decide (n ∈ Names f) then None else states !! n).
Proof.
  intros Hi. exists (WatchAllStates_recv f states). split.
  { unfold WatchAllStates. by rewrite list_lookup_fmap, Hi. }
  split; [apply WatchAllStates_recv_unfiltered|]. split.
  - intros Hmode Hnames n.
    rewrite WatchAllStates_recv_filtered by (done || by rewrite Hmode).
    rewrite Hmode. apply filter_in_lookup.
  - intros Hmode n. destruct (decide (Names f = ∅)) as [Hnames|Hnames].
    + rewrite WatchAllStates_recv_unfiltered by by right.
      rewrite Hnames. by rewrite decide_False.
    + rewrite WatchAllStates_recv_filtered by (done || by rewrite Hmode).
      rewrite Hmode. apply filter_out_lookup.
Qed.

Lemma C7_WatchAllStates_filter_witness :
  ∃ out, WatchAllStates includeA [snapshotAB] !! 0 = Some out ∧
    (Mode includeA = FilterMode.None ∨ Names includeA = ∅ → out = snapshotAB) ∧
    (Mode includeA = FilterMode.Include → Names includeA ≠ ∅ →
       ∀ n, out !! n = if decide (n ∈ Names includeA) then snapshotAB !! n else None) ∧
    (Mode includeA = FilterMode.Exclude →
       ∀ n, out !! n = if decide (n ∈ Names includeA) then None else snapshotAB !! n).
Proof. apply (C7_WatchAllStates_filter includeA [snapshotAB] 0 snapshotAB). reflexivity. Defined.

(** On that input the entry of "b" is dropped. *)
Example WatchAllStates_includeA :
  WatchAllStates includeA [snapshotAB] = [snapshotA].
Proof. by vm_compute. Qed.

(** ** The intracom topic *)

Section TopicFacts.
Import intracom.

Lemma Subscribe_closed cfg t :
  closed t = true → Subscribe cfg t = (inr (TopicClosed "subscribe"), t).
Proof. unfold Subscribe. by intros ->. Qed.

Lemma Subscribe_exists_err cfg t sub :
  closed t = false → subscribers t !! ConsumerGroup cfg = Some sub →
  ErrIfExists cfg = true →
  Subscribe cfg t = (inr (GroupExists (ConsumerGroup cfg)), t).
Proof. unfold Subscribe. by intros -> -> ->. Qed.

Lemma Subscribe_exists_join cfg t sub :
  closed t = false → subscribers t !! ConsumerGroup cfg = Some sub →
  ErrIfExists cfg = false →
  Subscribe cfg t = (inl (ch sub), t).
Proof. unfold Subscribe. by intros -> -> ->. Qed.

Lemma Subscribe_new cfg t :
  closed t = false → subscribers t !! ConsumerGroup cfg = None →
  (Subscribe cfg t).1 = inl (nextChan t) ∧
  subscribers (Subscribe cfg t).2 !! ConsumerGroup cfg =
    Some {| ch := nextChan t; conf := cfg |} ∧
  closed (Subscribe cfg t).2 = false.
Proof.
  unfold Subscribe. intros Hc ->. rewrite Hc. simpl.
  by rewrite lookup_insert_eq.
Qed.

Lemma Unsubscribe_closed g t :
  closed t = true → Unsubscribe g t = (Some (TopicClosed "unsubscribe"), t).
Proof. unfold Unsubscribe. by intros ->. Qed.

Lemma Unsubscribe_unknown g t :
  closed t = false → subscribers t !! g = None →
  Unsubscribe g t = (Some (GroupUnknown g), t).
Proof. unfold Unsubscribe. by intros -> ->. Qed.

Lemma Unsubscribe_known g t sub :
  closed t = false → subscribers t !! g = Some sub →
  (Unsubscribe g t).1 = None ∧
  subscribers (Unsubscribe g t).2 = delete g (subscribers t) ∧
  closed (Unsubscribe g t).2 = false ∧
  ch sub ∈ closedChans (Unsubscribe g t).2.
Proof.
  unfold Unsubscribe. intros Hc ->. rewrite Hc. simpl.
  repeat split; try done. apply elem_of_union_l. by apply elem_of_singleton.
Qed.

(** After [Unsubscribe], whatever it answered, the group is not there and
    the topic is as open or closed as before. *)
Lemma Unsubscribe_after g t :
  closed t = false →
  subscribers (Unsubscribe g t).2 !! g = None ∧
  closed (Unsubscribe g t).2 = false.
Proof.
  intros Hc. destruct (subscribers t !! g) as [sub|] eqn:Hg.
  - destruct (Unsubscribe_known g t sub Hc Hg) as (_ & -> & -> & _).
    by rewrite lookup_delete_eq.
  - by rewrite Unsubscribe_unknown.
Qed.

Lemma Close_closes t : closed (Close t).2 = true.
Proof. unfold Close. by destruct (closed t) eqn:Hc. Qed.

(** The invariant on channels holds at the start and is kept. *)
Lemma wf_newTopic : wf newTopic.
Proof. intros g sub Hg. simpl in Hg. by rewrite lookup_empty in Hg. Qed.

Lemma wf_Subscribe cfg t : wf t → wf (Subscribe cfg t).2.
Proof.
  intros Hwf. unfold Subscribe. destruct (closed t); [done|].
  destruct (subscribers t !! ConsumerGroup cfg) as [sub|] eqn:Hg.
  - by destruct (ErrIfExists cfg).
  - intros g sub'. simpl.
    destruct (decide (ConsumerGroup cfg = g)) as [<-|Hne].
    + rewrite lookup_insert_eq. intros [= <-]. simpl. lia.
    + rewrite lookup_insert_ne by done. intros Hsub.
      specialize (Hwf _ _ Hsub). lia.
Qed.

Lemma wf_Unsubscribe g t : wf t → wf (Unsubscribe g t).2.
Proof.
  intros Hwf. unfold Unsubscribe. destruct (closed t); [done|].
  destruct (subscribers t !! g) as [sub|] eqn:Hg; [|done].
  intros g' sub'. simpl. intros Hsub%lookup_delete_Some.
  destruct Hsub as [_ Hsub]. by apply (Hwf g').
Qed.

Lemma wf_Close t : wf t → wf (Close t).2.
Proof.
  intros Hwf. unfold Close. destruct (closed t); [done|].
  intros g sub. simpl. by rewrite lookup_empty.
Qed.

(** In a well-formed topic the channel of a new group is no channel of
    the groups already there. *)
Lemma Subscribe_new_is_fresh t g sub :
  wf t → subscribers t !! g = Some sub → ch sub ≠ nextChan t.
Proof. intros Hwf Hsub. specialize (Hwf _ _ Hsub). lia. Qed.

(** C8: [Subscribe] fails exactly when the topic is closed (topic closed)
    or the group exists and [ErrIfExists] is set (group exists), and
    otherwise answers the channel of the existing group or that of a new
    one; [Unsubscribe] fails exactly when the topic is closed or the group
    is unknown (group unknown); [Close] fails exactly when the topic is
    already closed (already closed). A second [Close] answers already
    closed, and on an open topic a second [Unsubscribe] of the same group
    answers group unknown. *)
Theorem C8_topic_failures (t : topic) :
  (∀ cfg e,
      (Subscribe cfg t).1 = inr e ↔
      (closed t = true ∧ e = TopicClosed "subscribe") ∨
      (closed t = false ∧ is_Some (subscribers t !! ConsumerGroup cfg) ∧
       ErrIfExists cfg = true ∧ e = GroupExists (ConsumerGroup cfg))) ∧
  (∀ cfg c,
      (Subscribe cfg t).1 = inl c →
      (∃ sub, subscribers t !! ConsumerGroup cfg = Some sub ∧ c = ch sub ∧
              (Subscribe cfg t).2 = t) ∨
      (subscribers t !! ConsumerGroup cfg = None ∧ c = nextChan t ∧
       subscribers (Subscribe cfg t).2 !! ConsumerGroup cfg =
         Some {| ch := c; conf := cfg |})) ∧
  (∀ g e,
      (Unsubscribe g t).1 = Some e ↔
      (closed t = true ∧ e = TopicClosed "unsubscribe") ∨
      (closed t = false ∧ subscribers t !! g = None ∧ e = GroupUnknown g)) ∧
  (∀ e, (Close t).1 = Some e ↔ closed t = true ∧ e = AlreadyClosed) ∧
  (Close (Close t).2).1 = Some AlreadyClosed ∧
  (closed t = false →
   ∀ g, (Unsubscribe g (Unsubscribe g t).2).1 = Some (GroupUnknown g)).
Proof.
  repeat apply conj.
  - intros cfg e. destruct (closed t) eqn:Hc.
    { rewrite Subscribe_closed by done. simpl. split.
      - intros [= <-]. by left.
      - intros [[_ ->]|[? _]]; done. }
    destruct (subscribers t !! ConsumerGroup cfg) as [sub|] eqn:Hg.
    + destruct (ErrIfExists cfg) eqn:He.
      * rewrite (Subscribe_exists_err _ _ sub) by done. simpl. split.
        -- intros [= <-]. right. by repeat split.
        -- intros [[? _]|(_ & _ & _ & ->)]; done.
      * rewrite (Subscribe_exists_join _ _ sub) by done. simpl. split.
        -- done.
        -- intros [[? _]|(_ & _ & ? & _)]; done.
    + destruct (Subscribe_new cfg t Hc Hg) as (-> & _ & _). split.
      * done.
      * intros [[? _]|(_ & [? ?] & _)]; done.
  - intros cfg c. destruct (closed t) eqn:Hc.
    { by rewrite Subscribe_closed. }
    destruct (subscribers t !! ConsumerGroup cfg) as [sub|] eqn:Hg.
    + destruct (ErrIfExists cfg) eqn:He.
      * by rewrite (Subscribe_exists_err _ _ sub).
      * rewrite (Subscribe_exists_join _ _ sub) by done. simpl.
        intros [= <-]. left. by exists sub.
    + destruct (Subscribe_new cfg t Hc Hg) as (-> & -> & _).
      intros [= <-]. by right.
  - intros g e. destruct (closed t) eqn:Hc.
    { rewrite Unsubscribe_closed by done. simpl. split.
      - intros [= <-]. by left.
      - intros [[_ ->]|[? _]]; done. }
    destruct (subscribers t !! g) as [sub|] eqn:Hg.
    + destruct (Unsubscribe_known g t sub Hc Hg) as (-> & _). split.
      * done.
      * intros [[? _]|(_ & ? & _)]; done.
    + rewrite Unsubscribe_unknown by done. simpl. split.
      * intros [= <-]. by right.
      * intros [[? _]|(_ & _ & ->)]; done.
  - intros e. unfold Close. destruct (closed t); simpl.
    + split; [by intros [= <-]|by intros [_ ->]].
    + split; [done|by intros [? _]].
  - pose proof (Close_closes t) as Hc. unfold Close at 1. by rewrite Hc.
  - intros Hc g. destruct (Unsubscribe_after g t Hc) as [Hg Hc'].
    by rewrite Unsubscribe_unknown.
Qed.

(** The messages, as the source spells them. *)
Example Error_messages :
  Error (TopicClosed "subscribe") = "cannot subscribe, topic already closed" ∧
  Error (TopicClosed "unsubscribe") = "cannot unsubscribe, topic already closed" ∧
  Error (GroupExists "g") = "consumer group 'g already exists" ∧
  Error (GroupUnknown "g") = "consumer group 'g' does not exist" ∧
  Error AlreadyClosed = "topic already closed".
Proof. by repeat split. Qed.

(** One group, unsubscribed twice, then the topic closed twice. *)
Example openTopic_run :
  (Unsubscribe "g" openTopic).1 = None ∧
  (Unsubscribe "g" (Unsubscribe "g" openTopic).2).1 = Some (GroupUnknown "g") ∧
  (Close openTopic).1 = None ∧
  (Close (Close openTopic).2).1 = Some AlreadyClosed ∧
  (Unsubscribe "g" (Close openTopic).2).1 = Some (TopicClosed "unsubscribe").
Proof. by vm_compute. Qed.

End TopicFacts.
(** ** The continuous manager *)

Section TraceFacts.

Lemma reports_app tr1 tr2 : reports (tr1 ++ tr2) = reports tr1 ++ reports tr2.
Proof. apply omap_app. Qed.

Lemma invocations_app tr1 tr2 :
  invocations (tr1 ++ tr2) = invocations tr1 ++ invocations tr2.
Proof. apply omap_app. Qed.

Lemma visible_app tr1 tr2 : visible (tr1 ++ tr2) = visible tr1 ++ visible tr2.
Proof.
  induction tr1 as [|e tr1 IH]; [done|]. simpl.
  destruct (isTimer e); [done|]. by rewrite IH.
Qed.

Lemma reports_visible tr : reports (visible tr) = reports tr.
Proof.
  induction tr as [|e tr IH]; [done|]. simpl.
  destruct e; simpl; by rewrite ?IH.
Qed.

Lemma invocations_visible tr : invocations (visible tr) = invocations tr.
Proof.
  induction tr as [|e tr IH]; [done|]. simpl.
  destruct e; simpl; by rewrite ?IH.
Qed.


Lemma lastStop_invoke before cb tr :
  lastStop before (invoke cb :: tr) = lastStop (bool_decide (cb = CbStop)) tr.
Proof.
  unfold lastStop. simpl. destruct (invocations tr) as [|cb' l]; [done|].
  simpl. destruct (last (cb' :: l)) eqn:Hlast; [done|].
  by apply last_None in Hlast.
Qed.

Lemma lastStop_other before e tr :
  (∀ cb, e ≠ invoke cb) → lastStop before (e :: tr) = lastStop before tr.
Proof. intros He. unfold lastStop. destruct e; try done. by destruct (He cb). Qed.

End TraceFacts.

Section ManageFacts.
Context {R : Type}.
Variable m : RunContinuousManager.
Variable sctx : serviceContext.
Variable ds : DaemonService R.

Lemma errorLog_reports err : reports (errorLog sctx err) = [].
Proof. by destruct err. Qed.

Lemma errorLog_invocations err : invocations (errorLog sctx err) = [].
Proof. by destruct err. Qed.

Lemma errorLog_visible err : visible (errorLog sctx err) = errorLog sctx err.
Proof. by destruct err. Qed.

(** The [switch]: from a state other than [Exit] the callback of that
    state is invoked, first thing, and nothing is reported; if it returns,
    the next state is the one of the table and [hasStopped] tells whether
    the callback was [Stop]. *)
Lemma switchState_spec state hasStopped r :
  state ≠ StateExit →
  ∃ cb o r', stateOf cb = state ∧ outcomeIn ds state r = Some o ∧
    match o with
    | Returns err =>
        switchState sctx ds state hasStopped r =
        Continue (tableNext state false (failed o))
                 (if decide (cb = CbStop) then true else hasStopped) r'
                 (invoke cb :: errorLog sctx err)
    | Panics v => switchState sctx ds state hasStopped r = Panic v [invoke cb]
    end.
Proof.
  intros Hstate. destruct state; [| | | |done]; simpl.
  - exists CbInit. destruct (Init (Runner ds) r) as [[[err|]|v] r'];
      eexists _, r'; by repeat split.
  - exists CbIdle. destruct (Idle (Runner ds) r) as [[[err|]|v] r'];
      eexists _, r'; by repeat split.
  - exists CbRun. destruct (Run (Runner ds) r) as [[[err|]|v] r'];
      eexists _, r'; by repeat split.
  - exists CbStop. destruct (Stop (Runner ds) r) as [[[err|]|v] r'];
      eexists _, r'; by repeat split.
Qed.

Lemma tableNext_allowed state failed_ :
  state ≠ StateExit →
  tableAllows state (tableNext state false failed_) = true ∧
  tableNext state false failed_ ≠ StateExit.
Proof. by destruct state, failed_. Qed.


Lemma body_ctxDone state hasStopped r :
  body m sctx ds state hasStopped r ctxDone =
  Continue StateExit hasStopped r [updateState (ds_Name ds) state].
Proof. reflexivity. Qed.

(** The loop body when the timer fires. *)
Lemma body_timeoutC state hasStopped r :
  state ≠ StateExit →
  ∃ cb o r', stateOf cb = state ∧ outcomeIn ds state r = Some o ∧
    match o with
    | Returns err =>
        body m sctx ds state hasStopped r timeoutC =
        Continue (tableNext state false (failed o))
                 (bool_decide (cb = CbStop)) r'
                 (updateState (ds_Name ds) state :: invoke cb ::
                  errorLog sctx err ++
                  [timerReset (transitionTimeout m (tableNext state false (failed o)))])
    | Panics v =>
        body m sctx ds state hasStopped r timeoutC =
        Panic v [updateState (ds_Name ds) state; invoke cb]
    end.
Proof.
  intros Hstate. unfold body.
  destruct (switchState_spec state (if hasStopped then false else hasStopped)
                             r Hstate) as (cb & o & r' & Hcb & Ho & Hsw).
  exists cb, o, r'. split; [done|]. split; [done|].
  destruct o as [err|v]; rewrite Hsw; [|done].
  f_equal. destruct hasStopped; by case_decide; rewrite ?bool_decide_eq_true_2,
    ?bool_decide_eq_false_2 by done.
Qed.

Lemma loop_Exit hasStopped r sched :
  loop m sctx ds StateExit hasStopped r sched = afterLoop sctx ds hasStopped r.
Proof. by destruct sched. Qed.

Lemma loop_nil state hasStopped r :
  state ≠ StateExit →
  loop m sctx ds state hasStopped r [] = ([], Looping state hasStopped r).
Proof. by destruct state. Qed.

Lemma loop_cons state hasStopped r sel sched :
  state ≠ StateExit →
  loop m sctx ds state hasStopped r (sel :: sched) =
  match body m sctx ds state hasStopped r sel with
  | Continue state' hasStopped' r' evs =>
      let '(tr, e) := loop m sctx ds state' hasStopped' r' sched in
      (evs ++ tr, e)
  | Panic v evs => (evs, Recovered v)
  end.
Proof. by destruct state. Qed.


(** The shape of every trace of the loop and of what follows it: first
    the passes through the body ([pre]), in which every callback comes
    right after the report of its state and [Exit] is never reported, then
    the exit ([post]). If the code reaches its last line, [post] is the
    final report, preceded by one call of [Stop] exactly when the last
    callback of the passes was not [Stop]. If a callback panics, the
    trace ends with that call: in a pass, or in the [Stop] of the exit. *)
Lemma loop_shape sched : ∀ state hasStopped r tr e,
  loop m sctx ds state hasStopped r sched = (tr, e) →
  ∃ pre post, visible tr = pre ++ post ∧
    (∀ prev, reportedFirst prev pre = true) ∧
    (StateExit ∉ reports pre) ∧
    match e with
    | Looping _ _ _ => post = []
    | Returned _ =>
        if lastStop hasStopped pre
        then post = [updateState (ds_Name ds) StateExit]
        else ∃ err, post = invoke CbStop :: errorLog sctx err ++
                           [updateState (ds_Name ds) StateExit]
    | Recovered v =>
        (post = [] ∧ ∃ pre0 cb, pre = pre0 ++ [invoke cb]) ∨
        (lastStop hasStopped pre = false ∧ post = [invoke CbStop])
    end.
Proof.
  assert (∀ hasStopped r tr e,
             afterLoop sctx ds hasStopped r = (tr, e) →
             visible tr = [] ++ tr ∧
             match e with
             | Looping _ _ _ => tr = []
             | Returned _ =>
                 if hasStopped
                 then tr = [updateState (ds_Name ds) StateExit]
                 else ∃ err, tr = invoke CbStop :: errorLog sctx err ++
                                  [updateState (ds_Name ds) StateExit]
             | Recovered v => hasStopped = false ∧ tr = [invoke CbStop]
             end) as Hafter.
  { intros hs r tr e. unfold afterLoop. destruct hs.
    - by intros [= <- <-].
    - destruct (Stop (Runner ds) r) as [[err|v] r']; intros [= <- <-].
      + split; [|by exists err]. simpl.
        by rewrite visible_app, errorLog_visible.
      + done. }
  induction sched as [|sel sched IH]; intros state hs r tr e Hloop.
  - destruct (decide (state = StateExit)) as [->|Hstate].
    + rewrite loop_Exit in Hloop. apply Hafter in Hloop as [Hvis Hpost].
      exists [], tr. split; [done|]. split; [done|].
      split; [by intros ?%elem_of_nil|].
      destruct e; [done| |done]. right. by destruct Hpost.
    + rewrite loop_nil in Hloop by done. injection Hloop as <- <-.
      exists [], []. repeat split; try done. by intros ?%elem_of_nil.
  - destruct (decide (state = StateExit)) as [->|Hstate].
    + rewrite loop_Exit in Hloop. apply Hafter in Hloop as [Hvis Hpost].
      exists [], tr. split; [done|]. split; [done|].
      split; [by intros ?%elem_of_nil|].
      destruct e; [done| |done]. right. by destruct Hpost.
    + rewrite loop_cons in Hloop by done. destruct sel.
      * rewrite body_ctxDone in Hloop.
        destruct (loop m sctx ds StateExit hs r sched) as [tr' e'] eqn:Hrest.
        injection Hloop as <- <-.
        destruct (IH _ _ _ _ _ Hrest) as (pre & post & Hvis & Hrep & Hex & He).
        exists (updateState (ds_Name ds) state :: pre), post.
        split; [simpl; by rewrite Hvis|].
        split; [intros prev; simpl; apply Hrep|].
        split.
        { simpl. intros [?|?]%elem_of_cons; [by subst|done]. }
        rewrite lastStop_other by done.
        destruct e'; [done| |done].
        destruct He as [[-> (pre0 & cb & ->)]|He]; [left|by right].
        split; [done|]. by exists (updateState (ds_Name ds) state :: pre0), cb.
      * destruct (body_timeoutC state hs r Hstate)
          as (cb & o & r' & Hcb & Ho & Hbody).
        destruct o as [err|v]; rewrite Hbody in Hloop.
        -- destruct (loop m sctx ds _ _ r' sched) as [tr' e'] eqn:Hrest.
           injection Hloop as <- <-.
           destruct (IH _ _ _ _ _ Hrest) as (pre & post & Hvis & Hrep & Hex & He).
           exists (updateState (ds_Name ds) state :: invoke cb ::
                   errorLog sctx err ++ pre), post.
           split.
           { simpl. rewrite !visible_app, errorLog_visible, Hvis. simpl.
             by rewrite app_nil_r, <- app_assoc. }
           split.
           { intros prev. simpl. rewrite bool_decide_eq_true_2 by done.
             destruct err; simpl; apply Hrep. }
           split.
           { simpl. rewrite reports_app, errorLog_reports. simpl.
             intros [?|?]%elem_of_cons; [by subst|done]. }
           rewrite lastStop_other, lastStop_invoke by done.
           assert (lastStop (bool_decide (cb = CbStop)) (errorLog sctx err ++ pre)
                   = lastStop (bool_decide (cb = CbStop)) pre) as ->.
           { destruct err; [|done]. by apply lastStop_other. }
           destruct e'; [done| |done].
           destruct He as [[-> (pre0 & cb' & ->)]|He]; [left|by right].
           split; [done|].
           exists (updateState (ds_Name ds) state :: invoke cb ::
                   errorLog sctx err ++ pre0), cb'.
           simpl. by rewrite <- app_assoc.
        -- injection Hloop as <- <-.
           exists [updateState (ds_Name ds) state; invoke cb], [].
           split; [done|]. split.
           { intros prev. simpl. by rewrite bool_decide_eq_true_2. }
           split.
           { simpl. intros [?|?%elem_of_nil]%elem_of_cons; [by subst|done]. }
           left. split; [done|]. by exists [updateState (ds_Name ds) state], cb.
Qed.


(** The states reported by the loop start with the loop's state and then
    follow the table. *)
Lemma loop_reports_follow sched : ∀ state hasStopped r,
  match reports (loop m sctx ds state hasStopped r sched).1 with
  | [] => True
  | s :: l => s = state ∧ followsTable state l = true
  end.
Proof.
  assert (∀ hs r, match reports (afterLoop sctx ds hs r).1 with
                  | [] => True
                  | s :: l => s = StateExit ∧ followsTable StateExit l = true
                  end) as Hafter.
  { intros hs r. unfold afterLoop. destruct hs; [done|].
    destruct (Stop (Runner ds) r) as [[err|v] r']; [|done]. simpl.
    by rewrite reports_app, errorLog_reports. }
  induction sched as [|sel sched IH]; intros state hs r;
    (destruct (decide (state = StateExit)) as [->|Hstate];
     [rewrite loop_Exit; apply Hafter|]).
  - by rewrite loop_nil.
  - rewrite loop_cons by done. destruct sel.
    + rewrite body_ctxDone.
      destruct (loop m sctx ds StateExit hs r sched) as [tr' e'] eqn:Hrest.
      simpl. split; [done|]. rewrite loop_Exit in Hrest.
      specialize (Hafter hs r). rewrite Hrest in Hafter. simpl in Hafter.
      destruct (reports tr') as [|s l]; [done|]. destruct Hafter as [-> Hl].
      simpl. rewrite Hl. by destruct state.
    + destruct (body_timeoutC state hs r Hstate)
        as (cb & o & r' & Hcb & Ho & Hbody).
      destruct o as [err|v]; rewrite Hbody; [|done].
      destruct (tableNext_allowed state (failed (Returns err)) Hstate)
        as [Hallowed _].
      set (next := tableNext state false (failed (Returns err))) in *.
      specialize (IH next (bool_decide (cb = CbStop)) r').
      destruct (loop m sctx ds next _ r' sched) as [tr' e'].
      cbn [fst] in *. rewrite reports_app. cbn [reports omap list_omap].
      fold (reports (errorLog sctx err ++ [timerReset (transitionTimeout m next)])).
      rewrite reports_app, errorLog_reports. cbn.
      split; [done|].
      destruct (reports tr') as [|s l]; [done|]. destruct IH as [-> Hl].
      cbn [followsTable]. by rewrite Hallowed, Hl.
Qed.

(** [Manage] reaches its last line only if the [select] has taken the
    cancelled case. *)
Lemma loop_Returned_ctxDone sched : ∀ state hasStopped r r',
  (loop m sctx ds state hasStopped r sched).2 = Returned r' →
  state = StateExit ∨ ctxDone ∈ sched.
Proof.
  induction sched as [|sel sched IH]; intros state hs r r0 Hret;
    (destruct (decide (state = StateExit)) as [->|Hstate]; [by left|right]).
  - by rewrite loop_nil in Hret.
  - rewrite loop_cons in Hret by done. destruct sel; [left|].
    destruct (body_timeoutC state hs r Hstate)
      as (cb & o & r' & Hcb & Ho & Hbody).
    destruct o as [err|v]; rewrite Hbody in Hret; [|done].
    destruct (loop m sctx ds _ _ r' sched) as [tr' e'] eqn:Hrest.
    simpl in Hret. subst e'.
    destruct (IH _ _ _ r0 (f_equal snd Hrest)) as [Hexit|Hin]; [|by right].
    by destruct (tableNext_allowed state (failed (Returns err)) Hstate).
Qed.

(** Once the [select] takes the cancelled case the code ends: it returns
    from its last line or from a recovered panic. *)
Lemma loop_ends sched : ∀ state hasStopped r,
  ctxDone ∈ sched →
  ∀ s h r0, (loop m sctx ds state hasStopped r sched).2 ≠ Looping s h r0.
Proof.
  assert (∀ hs r s h r0, (afterLoop sctx ds hs r).2 ≠ Looping s h r0) as Hafter.
  { intros hs r s h r0. unfold afterLoop. destruct hs; [done|].
    by destruct (Stop (Runner ds) r) as [[err|v] r']. }
  induction sched as [|sel sched IH]; intros state hs r Hin s h r0.
  { by apply elem_of_nil in Hin. }
  destruct (decide (state = StateExit)) as [->|Hstate].
  { rewrite loop_Exit. apply Hafter. }
  rewrite loop_cons by done. destruct sel.
  - rewrite body_ctxDone.
    destruct (loop m sctx ds StateExit hs r sched) as [tr' e'] eqn:Hrest.
    simpl. rewrite loop_Exit in Hrest.
    specialize (Hafter hs r s h r0). by rewrite Hrest in Hafter.
  - apply elem_of_cons in Hin as [?|Hin]; [done|].
    destruct (body_timeoutC state hs r Hstate)
      as (cb & o & r' & Hcb & Ho & Hbody).
    destruct o as [err|v]; rewrite Hbody; [|done].
    specialize (IH (tableNext state false (failed (Returns err)))
                   (bool_decide (cb = CbStop)) r' Hin s h r0).
    by destruct (loop m sctx ds _ _ r' sched) as [tr' e'].
Qed.


Lemma Manage_loop r sched :
  Manage m sctx ds r sched =
  (timerNew (StartupDelay m) ::
     (loop m sctx ds StateInit false r sched).1 ++
     deferred sctx (loop m sctx ds StateInit false r sched).2,
   (loop m sctx ds StateInit false r sched).2).
Proof. unfold Manage. by destruct (loop m sctx ds StateInit false r sched). Qed.

Lemma deferred_reports (e : ending R) : reports (deferred sctx e) = [].
Proof. by destruct e. Qed.

Lemma Manage_reports r sched :
  reports (Manage m sctx ds r sched).1 =
  reports (loop m sctx ds StateInit false r sched).1.
Proof.
  rewrite Manage_loop. cbn [fst reports omap list_omap].
  fold (reports ((loop m sctx ds StateInit false r sched).1 ++
                 deferred sctx (loop m sctx ds StateInit false r sched).2)).
  by rewrite reports_app, deferred_reports, app_nil_r.
Qed.

(** The shape of every trace of [Manage], the timer left out: the passes
    through the loop body, the exit, and the log of the deferred
    [recover] when a callback panicked. *)
Lemma Manage_shape r sched tr e :
  Manage m sctx ds r sched = (tr, e) →
  ∃ pre post, visible tr = pre ++ post ++ visible (deferred sctx e) ∧
    (∀ prev, reportedFirst prev pre = true) ∧
    (StateExit ∉ reports pre) ∧
    match e with
    | Looping _ _ _ => post = []
    | Returned _ =>
        if lastStop false pre
        then post = [updateState (ds_Name ds) StateExit]
        else ∃ err, post = invoke CbStop :: errorLog sctx err ++
                           [updateState (ds_Name ds) StateExit]
    | Recovered v =>
        (post = [] ∧ ∃ pre0 cb, pre = pre0 ++ [invoke cb]) ∨
        (lastStop false pre = false ∧ post = [invoke CbStop])
    end.
Proof.
  rewrite Manage_loop. intros [= <- <-].
  destruct (loop m sctx ds StateInit false r sched) as [tr e] eqn:Hloop.
  destruct (loop_shape _ _ _ _ _ _ Hloop) as (pre & post & Hvis & Hrest).
  exists pre, post. split; [|done].
  cbn [fst snd visible isTimer]. by rewrite visible_app, Hvis, app_assoc.
Qed.

(** The final report: made once, as the last report, when [Manage]
    reaches its last line; never made otherwise. *)
Lemma Manage_reports_Exit r sched :
  match (Manage m sctx ds r sched).2 with
  | Returned _ =>
      ∃ l, reports (Manage m sctx ds r sched).1 = l ++ [StateExit] ∧
           StateExit ∉ l
  | _ => StateExit ∉ reports (Manage m sctx ds r sched).1
  end.
Proof.
  destruct (Manage m sctx ds r sched) as [tr e] eqn:HM.
  destruct (Manage_shape _ _ _ _ HM) as (pre & post & Hvis & _ & Hex & He).
  cbn [fst snd]. rewrite <- (reports_visible tr), Hvis, !reports_app.
  rewrite reports_visible, deferred_reports, app_nil_r.
  destruct e as [r'|v|s h r'].
  - exists (reports pre). split; [|done]. f_equal.
    destruct (lastStop false pre); [by subst|].
    destruct He as [err ->]. simpl.
    by rewrite reports_app, errorLog_reports.
  - destruct He as [[-> _]|[_ ->]]; by rewrite app_nil_r.
  - subst post. by rewrite app_nil_r.
Qed.

(** After a panic nothing more is invoked or reported: the timer left
    out, the trace ends with the panicking call and the log of the
    deferred [recover]; the final state is not reported. *)
Lemma Manage_Recovered r sched tr v :
  Manage m sctx ds r sched = (tr, Recovered v) →
  (∃ tr0 cb,
      visible tr =
      tr0 ++ [invoke cb; logError sctx ("recovered from a panic: " +:+ v)]) ∧
  StateExit ∉ reports tr.
Proof.
  intros HM. split.
  - destruct (Manage_shape _ _ _ _ HM) as (pre & post & Hvis & _ & _ & He).
    rewrite Hvis. clear Hvis HM.
    change (visible (deferred sctx (Recovered v)))
      with [logError sctx ("recovered from a panic: " +:+ v)].
    destruct He as [[-> (pre0 & cb & ->)]|[_ ->]].
    + exists pre0, cb. by rewrite <- app_assoc.
    + exists pre, CbStop. done.
  - pose proof (Manage_reports_Exit r sched) as Hex. by rewrite HM in Hex.
Qed.

(** The loop body when the timer fires, with the runner's next state. *)
Lemma body_timeoutC_result state hasStopped r :
  state ≠ StateExit →
  ∃ cb o r', stateOf cb = state ∧ resultIn ds state r = Some (o, r') ∧
    match o with
    | Returns err =>
        body m sctx ds state hasStopped r timeoutC =
        Continue (tableNext state false (failed o))
                 (bool_decide (cb = CbStop)) r'
                 (updateState (ds_Name ds) state :: invoke cb ::
                  errorLog sctx err ++
                  [timerReset (transitionTimeout m (tableNext state false (failed o)))])
    | Panics v =>
        body m sctx ds state hasStopped r timeoutC =
        Panic v [updateState (ds_Name ds) state; invoke cb]
    end.
Proof.
  intros Hstate. unfold body, resultIn.
  destruct state; [| | | |done]; cbn [switchState].
  - exists CbInit. destruct (Init (Runner ds) r) as [[[err|]|v] r'];
      eexists _, r'; (split; [done|]); (split; [done|]); by destruct hasStopped.
  - exists CbIdle. destruct (Idle (Runner ds) r) as [[[err|]|v] r'];
      eexists _, r'; (split; [done|]); (split; [done|]); by destruct hasStopped.
  - exists CbRun. destruct (Run (Runner ds) r) as [[[err|]|v] r'];
      eexists _, r'; (split; [done|]); (split; [done|]); by destruct hasStopped.
  - exists CbStop. destruct (Stop (Runner ds) r) as [[[err|]|v] r'];
      eexists _, r'; (split; [done|]); (split; [done|]); by destruct hasStopped.
Qed.

(** When the [select] finds one of its cases ready and not the other, the
    loop body moves as the table says, the context cancelled or not. *)
Lemma body_one_ready rd sel state hasStopped r err :
  takes rd sel = true →
  ctxCancelled rd && timerFired rd = false →
  outcomeIn ds state r = Some (Returns err) →
  nextState (body m sctx ds state hasStopped r sel) =
  Some (tableNext state (ctxCancelled rd) (failed (Returns err))).
Proof.
  intros Htakes Hone Ho. destruct rd as [c f], sel; cbn in Htakes, Hone; subst.
  - by rewrite body_ctxDone.
  - rewrite andb_true_r in Hone. subst c. cbn [ctxCancelled].
    assert (state ≠ StateExit) as Hstate by by intros ->.
    destruct (body_timeoutC state hasStopped r Hstate)
      as (cb & o & r' & Hcb & Ho' & Hbody).
    rewrite Ho in Ho'. injection Ho' as <-. by rewrite Hbody.
Qed.

Lemma tableStates_Exit r sched : tableStates ds StateExit r sched = [].
Proof. by destruct sched. Qed.

Lemma afterLoop_reports hasStopped r :
  reports (afterLoop sctx ds hasStopped r).1 =
  match (afterLoop sctx ds hasStopped r).2 with
  | Returned _ => [StateExit]
  | _ => []
  end.
Proof.
  unfold afterLoop. destruct hasStopped; [done|].
  destruct (Stop (Runner ds) r) as [[err|v] r']; [|done]. cbn [fst snd].
  cbn [reports omap list_omap].
  fold (reports (errorLog sctx err ++ [updateState (ds_Name ds) StateExit])).
  by rewrite reports_app, errorLog_reports.
Qed.

(** The states reported by the loop are those of the table, pass after
    pass, and then Exit when the last line is reached. *)
Lemma loop_reports_table sched : ∀ state hasStopped r,
  reports (loop m sctx ds state hasStopped r sched).1 =
  tableStates ds state r sched ++
  match (loop m sctx ds state hasStopped r sched).2 with
  | Returned _ => [StateExit]
  | _ => []
  end.
Proof.
  induction sched as [|sel sched IH]; intros state hs r;
    (destruct (decide (state = StateExit)) as [->|Hstate];
     [rewrite loop_Exit, tableStates_Exit; apply afterLoop_reports|]).
  - by rewrite loop_nil.
  - rewrite loop_cons by done.
    destruct (body_timeoutC_result state hs r Hstate)
      as (cb & o & r' & Hcb & Hres & Hbody).
    cbn [tableStates]. rewrite Hres. destruct sel.
    + rewrite body_ctxDone. specialize (IH StateExit hs r).
      rewrite tableStates_Exit in IH.
      destruct (loop m sctx ds StateExit hs r sched) as [tr' e'].
      cbn [fst snd] in *. rewrite reports_app, IH. done.
    + destruct o as [err|v]; rewrite Hbody; [|done].
      set (next := tableNext state false (failed (Returns err))) in *.
      specialize (IH next (bool_decide (cb = CbStop)) r').
      destruct (loop m sctx ds next _ r' sched) as [tr' e'].
      cbn [fst snd] in *. rewrite reports_app. cbn [reports omap list_omap].
      fold (reports (errorLog sctx err ++ [timerReset (transitionTimeout m next)])).
      by rewrite reports_app, errorLog_reports, IH.
Qed.

(** In every run of [Manage] the states reported are those that the table
    gives from Init for the outcomes of the callbacks and the cases taken
    by the [select], followed by Exit when the last line is reached. *)
Lemma Manage_reports_table r sched :
  reports (Manage m sctx ds r sched).1 =
  tableStates ds StateInit r sched ++
  match (Manage m sctx ds r sched).2 with
  | Returned _ => [StateExit]
  | _ => []
  end.
Proof.
  rewrite Manage_reports, loop_reports_table. by rewrite (Manage_loop r sched).
Qed.

(** In a run where every [select] finds one case ready and not the other,
    a cancelled context is followed by Exit. *)
Lemma loop_cancelled_one_ready passes : ∀ state hasStopped r,
  Forall (λ p, takes p.1 p.2 = true ∧
               ctxCancelled p.1 && timerFired p.1 = false) passes →
  cancelledGivesExit
    (passes.*1) (reports (loop m sctx ds state hasStopped r (passes.*2)).1).
Proof.
  induction passes as [|[rd sel] passes IH]; intros state hs r Hone i rd' s.
  { by rewrite fmap_nil, lookup_nil. }
  apply Forall_cons in Hone as [[Htakes Hrd] Hone]. cbn [fst snd] in *.
  rewrite !fmap_cons. cbn [fst snd].
  destruct (decide (state = StateExit)) as [->|Hstate].
  { rewrite loop_Exit, afterLoop_reports.
    destruct (afterLoop sctx ds hs r).2; by destruct i. }
  rewrite loop_cons by done. destruct sel.
  - rewrite body_ctxDone. pose proof (afterLoop_reports hs r) as Hafter.
    rewrite <- loop_Exit with (sched := passes.*2) in Hafter.
    destruct (loop m sctx ds StateExit hs r (passes.*2)) as [tr' e'].
    cbn [fst snd] in *. rewrite reports_app, Hafter. intros _ _.
    destruct e'; destruct i as [|[|i]]; cbn; congruence.
  - destruct rd as [c f]. cbn in Htakes, Hrd. subst f.
    rewrite andb_true_r in Hrd. subst c.
    destruct i as [|i]; [by intros [= <-]|]. cbn [lookup list_lookup].
    destruct (body_timeoutC_result state hs r Hstate)
      as (cb & o & r' & Hcb & Hres & Hbody).
    destruct o as [err|v]; rewrite Hbody.
    + set (next := tableNext state false (failed (Returns err))) in *.
      specialize (IH next (bool_decide (cb = CbStop)) r' Hone i rd' s).
      destruct (loop m sctx ds next _ r' (passes.*2)) as [tr' e'].
      cbn [fst snd] in *. rewrite reports_app. cbn [reports omap list_omap].
      fold (reports (errorLog sctx err ++ [timerReset (transitionTimeout m next)])).
      rewrite reports_app, errorLog_reports. apply IH.
    + intros _ _. by destruct i.
Qed.

(** In a run of [Manage] where every [select] finds one case ready and not
    the other, a cancelled context is followed by Exit. *)
Lemma Manage_cancelled_one_ready passes r :
  Forall (λ p, takes p.1 p.2 = true ∧
               ctxCancelled p.1 && timerFired p.1 = false) passes →
  cancelledGivesExit
    (passes.*1) (reports (Manage m sctx ds r (passes.*2)).1).
Proof. intros Hone. rewrite Manage_reports. by apply loop_cancelled_one_ready. Qed.

(** C4, as the code has it: under the RunOnceIfSuccess policy, as under
    any other, the manager does not look at the policy. After [Run] the
    next state is Stop and after [Stop] it is Init, whether they return an
    error or not, so the manager loops again; and [Manage] reaches its
    final report only if the [select] has found the context cancelled. *)
Theorem C4_RunOnceIfSuccess_loops_again :
  so_RunPolicy (Options ds) = RunOnceIfSuccessPolicy →
  (∀ hasStopped r err,
      (Run (Runner ds) r).1 = Returns err →
      nextState (body m sctx ds StateRun hasStopped r timeoutC) = Some StateStop) ∧
  (∀ hasStopped r err,
      (Stop (Runner ds) r).1 = Returns err →
      nextState (body m sctx ds StateStop hasStopped r timeoutC) = Some StateInit) ∧
  (∀ r sched r',
      (Manage m sctx ds r sched).2 = Returned r' → ctxDone ∈ sched).
Proof.
  intros _. split; [|split].
  - intros hs r err Hrun. unfold body, switchState.
    destruct (Run (Runner ds) r) as [o r']. simpl in Hrun. by subst o.
  - intros hs r err Hstop. unfold body, switchState.
    destruct (Stop (Runner ds) r) as [o r']. simpl in Hstop. by subst o.
  - intros r sched r' Hret. rewrite Manage_loop in Hret.
    by destruct (loop_Returned_ctxDone _ _ _ _ _ Hret).
Qed.

(** [Manage] returns once the [select] has taken the cancelled case: from
    its last line, or from the deferred [recover]. *)
Lemma Manage_ends r sched :
  ctxDone ∈ sched →
  (∃ r', (Manage m sctx ds r sched).2 = Returned r') ∨
  (∃ v, (Manage m sctx ds r sched).2 = Recovered v).
Proof.
  intros Hin. rewrite Manage_loop. cbn [snd].
  pose proof (loop_ends sched StateInit false r Hin) as Hends.
  destruct (loop m sctx ds StateInit false r sched).2 as [r'|v|s h r0].
  - left. by exists r'.
  - right. by exists v.
  - by destruct (Hends s h r0).
Qed.

(** The policy of the service makes no difference to [Manage]. *)
Lemma Manage_policy_irrelevant (opts : ServiceOpts) r sched :
  Manage m sctx
         {| ds_Name := ds_Name ds; Runner := Runner ds; Options := opts |}
         r sched =
  Manage m sctx ds r sched.
Proof.
  unfold Manage.
  assert (∀ state hs r0,
             loop m sctx {| ds_Name := ds_Name ds; Runner := Runner ds;
                            Options := opts |} state hs r0 sched =
             loop m sctx ds state hs r0 sched) as ->; [|done].
  induction sched as [|sel sched IH]; intros state hs r0; [by destruct state|].
  destruct state; cbn [loop]; try done;
    (destruct (body m sctx ds _ hs r0 sel) as [s' hs' r' evs|v evs] eqn:Hb;
     unfold body in *; cbn [ds_Name Runner switchState] in *; rewrite Hb;
     [by rewrite IH|done]).
Qed.

End ManageFacts.

(** *** Runs of concrete services *)

(** C4, as stated, fails: a service under the RunOnceIfSuccess policy whose
    [Run] and [Stop] return no error is not taken to Exit. After the
    successful [Run] and [Stop] the next state is Init; six passes of the
    timer report Init, Idle, Run, Stop, Init, Idle, log nothing, and leave
    the manager in its loop, about to enter Run again. *)
Lemma C4_counterexample :
  so_RunPolicy (Options (service steadyService RunOnceIfSuccessPolicy)) =
    RunOnceIfSuccessPolicy ∧
  (Run steadyService ()).1 = Returns None ∧
  (Stop steadyService ()).1 = Returns None ∧
  nextState (body NewDefaultManager svcContext
                  (service steadyService RunOnceIfSuccessPolicy)
                  StateStop false () timeoutC) = Some StateInit ∧
  reports (Manage NewDefaultManager svcContext
                  (service steadyService RunOnceIfSuccessPolicy)
                  () (replicate 6 timeoutC)).1 =
    [StateInit; StateIdle; StateRun; StateStop; StateInit; StateIdle] ∧
  logged (Manage NewDefaultManager svcContext
                 (service steadyService RunOnceIfSuccessPolicy)
                 () (replicate 6 timeoutC)).1 = [] ∧
  (Manage NewDefaultManager svcContext
          (service steadyService RunOnceIfSuccessPolicy)
          () (replicate 6 timeoutC)).2 = Looping StateRun false ().
Proof. by vm_compute. Qed.

Lemma C4_RunOnceIfSuccess_loops_again_witness :
  (∀ hasStopped r err,
      (Run (Runner (service steadyService RunOnceIfSuccessPolicy)) r).1 = Returns err →
      nextState (body NewDefaultManager svcContext
                      (service steadyService RunOnceIfSuccessPolicy)
                      StateRun hasStopped r timeoutC) = Some StateStop) ∧
  (∀ hasStopped r err,
      (Stop (Runner (service steadyService RunOnceIfSuccessPolicy)) r).1 = Returns err →
      nextState (body NewDefaultManager svcContext
                      (service steadyService RunOnceIfSuccessPolicy)
                      StateStop hasStopped r timeoutC) = Some StateInit) ∧
  (∀ r sched r',
      (Manage NewDefaultManager svcContext
              (service steadyService RunOnceIfSuccessPolicy) r sched).2 =
      Returned r' → ctxDone ∈ sched).
Proof.
  apply (C4_RunOnceIfSuccess_loops_again NewDefaultManager svcContext
           (service steadyService RunOnceIfSuccessPolicy)).
  reflexivity.
Defined.

(** The third scenario of the specification, on the code: [Run] fails
    twice, then succeeds, under RunOnceIfSuccess. After the successful [Run]
    and its [Stop] the manager enters Init and Idle again; it ends when the
    context is cancelled, with the [Stop] of the exit. *)
Example failsTwice_run :
  reports (Manage NewDefaultManager svcContext
                  (service failsTwice RunOnceIfSuccessPolicy)
                  0 (replicate 13 timeoutC ++ [ctxDone])).1 =
    [StateInit; StateIdle; StateRun; StateStop;
     StateInit; StateIdle; StateRun; StateStop;
     StateInit; StateIdle; StateRun; StateStop;
     StateInit; StateIdle; StateExit] ∧
  invocations (Manage NewDefaultManager svcContext
                      (service failsTwice RunOnceIfSuccessPolicy)
                      0 (replicate 13 timeoutC ++ [ctxDone])).1 =
    [CbInit; CbIdle; CbRun; CbStop; CbInit; CbIdle; CbRun; CbStop;
     CbInit; CbIdle; CbRun; CbStop; CbInit; CbStop] ∧
  (Manage NewDefaultManager svcContext
          (service failsTwice RunOnceIfSuccessPolicy)
          0 (replicate 13 timeoutC ++ [ctxDone])).2 = Returned 3.
Proof. by vm_compute. Qed.

(** C1: by the last row of the table the next state is Exit from any
    state once the context is cancelled. Here the context is cancelled
    while [Init] runs. The default manager resets its timer with a delay of
    0, so the second [select] finds the context cancelled and the timer
    fired, and takes the timer's case: [Idle] is invoked with the context
    cancelled and the next state reported is Run, not Exit. The third
    [select] takes [sctx.Done()]. *)
Theorem C1_cancelled_context_timer_case_taken :
  possible cancelledInInit = true ∧
  cancelledInInit.*1 !! 1 = Some bothReady ∧
  tableNext StateIdle (ctxCancelled bothReady) false = StateExit ∧
  nextState (body NewDefaultManager svcContext
                  (service steadyService RunUntilStoppedPolicy)
                  StateIdle false () timeoutC) = Some StateRun ∧
  Manage NewDefaultManager svcContext
         (service steadyService RunUntilStoppedPolicy) ()
         (cancelledInInit.*2) =
    ([timerNew 10%Z;
      updateState "svc" StateInit; invoke CbInit; timerReset 0%Z;
      updateState "svc" StateIdle; invoke CbIdle; timerReset 0%Z;
      updateState "svc" StateRun;
      invoke CbStop; updateState "svc" StateExit; timerStop],
     Returned ()) ∧
  reports (Manage NewDefaultManager svcContext
                  (service steadyService RunUntilStoppedPolicy) ()
                  (cancelledInInit.*2)).1 =
    [StateInit; StateIdle; StateRun; StateExit] ∧
  ¬ cancelledGivesExit
      (cancelledInInit.*1)
      (reports (Manage NewDefaultManager svcContext
                       (service steadyService RunUntilStoppedPolicy) ()
                       (cancelledInInit.*2)).1).
Proof.
  do 6 (split; [by vm_compute|]).
  intros Hexit. by specialize (Hexit 1 bothReady StateRun eq_refl eq_refl eq_refl).
Qed.

(** C2: every run of [Manage] that ends is to report Exit exactly once, as
    its last report, after one call of [Stop] if none was made in the
    current cycle. Here the context is cancelled before the first pass, the
    loop exits, [Stop] is invoked once and panics: [Manage] returns from the
    deferred [recover] having reported Init only, and Exit never. *)
Theorem C2_Stop_panics_at_exit_no_final_report :
  Manage NewDefaultManager svcContext
         (service panicInStop RunUntilStoppedPolicy) () [ctxDone] =
    ([timerNew 10%Z; updateState "svc" StateInit; invoke CbStop; timerStop;
      logSend (Log svcContext LevelError
                   "recovered from a panic: stop went wrong" [])],
     Recovered "stop went wrong") ∧
  reports (Manage NewDefaultManager svcContext
                  (service panicInStop RunUntilStoppedPolicy) () [ctxDone]).1 =
    [StateInit] ∧
  count_occ State_eq_dec
    (reports (Manage NewDefaultManager svcContext
                     (service panicInStop RunUntilStoppedPolicy) () [ctxDone]).1)
    StateExit = 0.
Proof. by vm_compute. Qed.

(** C3: after a panic of a callback the manager is to log an error, invoke
    [Stop] and report Exit. With [mockPanicService], whose [Run] panics, the
    panic is recovered and logged at the error level, and that is all:
    [Stop] is not invoked and Exit is not reported, although the context is
    cancelled right after. *)
Theorem C3_panic_in_Run_no_Stop_no_Exit :
  Manage NewDefaultManager svcContext
         (service mockPanicService RunUntilStoppedPolicy) ()
         [timeoutC; timeoutC; timeoutC; ctxDone] =
    ([timerNew 10%Z;
      updateState "svc" StateInit; invoke CbInit; timerReset 0%Z;
      updateState "svc" StateIdle; invoke CbIdle; timerReset 0%Z;
      updateState "svc" StateRun; invoke CbRun;
      timerStop;
      logSend (Log svcContext LevelError
                   "recovered from a panic: intentional panic" [])],
     Recovered "intentional panic") ∧
  invocations (Manage NewDefaultManager svcContext
                      (service mockPanicService RunUntilStoppedPolicy) ()
                      [timeoutC; timeoutC; timeoutC; ctxDone]).1 =
    [CbInit; CbIdle; CbRun] ∧
  reports (Manage NewDefaultManager svcContext
                  (service mockPanicService RunUntilStoppedPolicy) ()
                  [timeoutC; timeoutC; timeoutC; ctxDone]).1 =
    [StateInit; StateIdle; StateRun].
Proof. by vm_compute. Qed.

(** C5: every state is to be reported before its callback runs, and the
    final Exit is to be reported exactly once. With a runner whose [Idle]
    panics, Init and Idle are each reported right before their callback, and
    [Manage] returns without any report of Exit. *)
Theorem C5_panic_in_Idle_no_final_report :
  visible (Manage NewDefaultManager svcContext
                  (service panicInIdle RunUntilStoppedPolicy) ()
                  [timeoutC; timeoutC; ctxDone]).1 =
    [updateState "svc" StateInit; invoke CbInit;
     updateState "svc" StateIdle; invoke CbIdle;
     logSend (Log svcContext LevelError
                  "recovered from a panic: idle went wrong" [])] ∧
  (Manage NewDefaultManager svcContext
          (service panicInIdle RunUntilStoppedPolicy) ()
          [timeoutC; timeoutC; ctxDone]).2 = Recovered "idle went wrong" ∧
  count_occ State_eq_dec
    (reports (Manage NewDefaultManager svcContext
                     (service panicInIdle RunUntilStoppedPolicy) ()
                     [timeoutC; timeoutC; ctxDone]).1)
    StateExit = 0.
Proof. by vm_compute. Qed.

(** The first scenario of the specification: every callback returns [nil],
    and the context is cancelled while the service is about to enter Run for
    the second time. Each callback comes right after the report of its
    state; [Stop] runs once more at the exit, unreported, since the last
    callback was [Idle]; Exit is the last report. *)
Example steadyService_run :
  visible (Manage NewDefaultManager svcContext
                  (service steadyService RunUntilStoppedPolicy) ()
                  (replicate 6 timeoutC ++ [ctxDone])).1 =
    [updateState "svc" StateInit; invoke CbInit;
     updateState "svc" StateIdle; invoke CbIdle;
     updateState "svc" StateRun; invoke CbRun;
     updateState "svc" StateStop; invoke CbStop;
     updateState "svc" StateInit; invoke CbInit;
     updateState "svc" StateIdle; invoke CbIdle;
     updateState "svc" StateRun;
     invoke CbStop;
     updateState "svc" StateExit] ∧
  (Manage NewDefaultManager svcContext
          (service steadyService RunUntilStoppedPolicy) ()
          (replicate 6 timeoutC ++ [ctxDone])).2 = Returned ().
Proof. by vm_compute. Qed.

(** ** More on the watches *)

Section WatchAnyServicesFacts.
Variable action : ServiceAction.
Variable target : State.
Variable states : ServiceStates.

Lemma interestedAny_interested acc service :
  interestedAny action target states acc service =
  interested action target states acc service.
Proof. reflexivity. Qed.

Lemma collectedAny_lookup (services : list string) n :
  foldl (interestedAny action target states) ∅ services !! n =
  if decide (n ∈ services) then found action target states n else None.
Proof.
  change (interestedAny action target states)
    with (interested action target states).
  rewrite collected_lookup. case_decide; [|done].
  rewrite lookup_empty. by destruct (found action target states n).
Qed.

Lemma WatchAnyServices_recv_sends (services : list string) :
  is_Some (WatchAnyServices_recv action target services states) ↔
  ∃ n, n ∈ services ∧ satisfies action target states n.
Proof.
  unfold WatchAnyServices_recv.
  set (m := foldl (interestedAny action target states) ∅ services).
  case_decide as Hsize.
  - split; [intros _|by eexists].
    assert (m ≠ ∅) as Hne.
    { intros Hm. rewrite Hm, map_size_empty in Hsize. lia. }
    apply map_choose in Hne as (n & val & Hn).
    unfold m in Hn. rewrite collectedAny_lookup in Hn.
    case_decide as Hin; [|done].
    exists n. split; [done|]. apply found_satisfies. by exists val.
  - split; [by intros [??]|]. intros (n & Hin & Hsat). exfalso. apply Hsize.
    apply found_satisfies in Hsat as [val Hval].
    assert (m !! n = Some val) as Hn.
    { unfold m. rewrite collectedAny_lookup. by rewrite decide_True. }
    assert (m ≠ ∅) as Hne.
    { intros Hm. by rewrite Hm, lookup_empty in Hn. }
    apply map_size_non_empty_iff in Hne. lia.
Qed.


Lemma WatchAnyServices_recv_lookup (services : list string) out n val :
  WatchAnyServices_recv action target services states = Some out →
  out !! n = Some val ↔
  n ∈ services ∧ found action target states n = Some val.
Proof.
  unfold WatchAnyServices_recv. case_decide; [|done]. intros [= <-].
  rewrite collectedAny_lookup. case_decide; [|split; [done|by intros [? _]]].
  split; [done|by intros [_ ?]].
Qed.

Lemma WatchAllServices_recv_lookup (services : list string) out n val :
  WatchAllServices_recv action target services states = Some out →
  out !! n = Some val ↔
  n ∈ services ∧ found action target states n = Some val.
Proof.
  unfold WatchAllServices_recv. case_decide; [|done]. intros [= <-].
  rewrite collected_lookup, lookup_empty.
  case_decide; [|split; [done|by intros [? _]]].
  destruct (found action target states n); (split; [done|by intros [_ ?]]).
Qed.

Lemma found_value n val :
  found action target states n = Some val →
  match action with
  | Entering => val = target
  | Exiting => val ≠ target
  | OtherAction _ => False
  end.
Proof.
  unfold found. destruct action; [| |done];
    destruct (states !! n); try done; case_decide; congruence.
Qed.

End WatchAnyServicesFacts.

(** X1: [WatchAnyServices] sends for a snapshot exactly when at least one
    of the names asked for satisfies the predicate, and the map sent holds
    exactly those names, each with its state in the snapshot; names that
    are repeated make no difference, and with no names it never sends. *)
Theorem X1_WatchAnyServices_sends (action : ServiceAction) (target : State)
    (services : list string) (states : ServiceStates) :
  (is_Some (WatchAnyServices_recv action target services states) ↔
   ∃ n, n ∈ services ∧ satisfies action target states n) ∧
  (∀ out n val,
      WatchAnyServices_recv action target services states = Some out →
      out !! n = Some val ↔
      n ∈ services ∧ states !! n = Some val ∧ satisfies action target states n) ∧
  WatchAnyServices_recv action target [] states = None.
Proof.
  split; [apply WatchAnyServices_recv_sends|]. split; [|done].
  intros out n val Hout.
  rewrite (WatchAnyServices_recv_lookup _ _ _ _ _ _ _ Hout). split.
  - intros [Hin Hf]. split; [done|]. split; [by eapply found_lookup|].
    apply found_satisfies. by eexists.
  - intros (Hin & Hn & Hsat). split; [done|].
    destruct (proj2 (found_satisfies action target states n) Hsat) as [val' Hf].
    rewrite Hf. apply found_lookup in Hf. congruence.
Qed.

(** X2: asked for pairwise distinct names, [WatchAllServices] sends for a
    snapshot exactly when every name satisfies the predicate, and the map
    sent holds exactly the names asked for, each with its state in the
    snapshot. *)
Theorem X2_WatchAllServices_distinct_names (action : ServiceAction)
    (target : State) (services : list string) (states : ServiceStates) :
  NoDup services →
  (is_Some (WatchAllServices_recv action target services states) ↔
   Forall (satisfies action target states) services) ∧
  (∀ out n,
      WatchAllServices_recv action target services states = Some out →
      out !! n = if decide (n ∈ services) then states !! n else None).
Proof.
  intros Hnd. split.
  - rewrite WatchAllServices_recv_sends. split; [by intros [_ ?]|done].
  - intros out n Hout. by apply (WatchAllServices_recv_sent action target).
Qed.

Lemma X2_WatchAllServices_distinct_names_witness :
  (is_Some (WatchAllServices_recv Entering StateRun ["a"; "b"] snapshotAB) ↔
   Forall (satisfies Entering StateRun snapshotAB) ["a"; "b"]) ∧
  (∀ out n,
      WatchAllServices_recv Entering StateRun ["a"; "b"] snapshotAB = Some out →
      out !! n = if decide (n ∈ ["a"; "b"]) then snapshotAB !! n else None).
Proof.
  apply (X2_WatchAllServices_distinct_names Entering StateRun ["a"; "b"] snapshotAB).
  apply NoDup_cons. split; [|apply NoDup_singleton].
  intros Hin. apply list_elem_of_singleton in Hin. discriminate.
Defined.

(** X3: whenever [WatchAllServices], asked for at least one name, sends a
    map for a snapshot, [WatchAnyServices] with the same arguments sends the
    same map for it. *)
Theorem X3_all_sends_then_any_sends (action : ServiceAction) (target : State)
    (services : list string) (states out : ServiceStates) :
  services ≠ [] →
  WatchAllServices_recv action target services states = Some out →
  WatchAnyServices_recv action target services states = Some out.
Proof.
  intros Hne Hall.
  assert (is_Some (WatchAnyServices_recv action target services states))
    as [out' Hany].
  { apply WatchAnyServices_recv_sends.
    assert (Forall (satisfies action target states) services) as Hsat.
    { apply (WatchAllServices_recv_sends action target states services).
      by eexists. }
    destruct services as [|n l]; [done|]. exists n. split; [left|].
    by apply Forall_cons in Hsat as [? _]. }
  rewrite Hany. f_equal. apply map_eq. intros n. apply option_eq. intros val.
  rewrite (WatchAnyServices_recv_lookup _ _ _ _ _ _ _ Hany).
  by rewrite (WatchAllServices_recv_lookup _ _ _ _ _ _ _ Hall).
Qed.

Lemma X3_all_sends_then_any_sends_witness :
  WatchAnyServices_recv Entering StateRun ["a"] snapshotAB = Some snapshotA.
Proof.
  apply (X3_all_sends_then_any_sends Entering StateRun ["a"] snapshotAB snapshotA).
  - discriminate.
  - by vm_compute.
Defined.

(** X4: a watch never makes up a state: every map sent by [WatchAllServices],
    [WatchAnyServices] or [WatchAllStates] is a part of the snapshot
    received. In a map sent by an [Entering] watch every state is the
    target, and in a map sent by an [Exiting] watch none is. *)
Theorem X4_watches_send_parts_of_the_snapshot (action : ServiceAction)
    (target : State) (services : list string) (f : ServiceFilter)
    (states : ServiceStates) :
  (∀ out, WatchAllServices_recv action target services states = Some out →
          out ⊆ states) ∧
  (∀ out, WatchAnyServices_recv action target services states = Some out →
          out ⊆ states) ∧
  WatchAllStates_recv f states ⊆ states ∧
  (∀ out n val,
      WatchAllServices_recv action target services states = Some out ∨
      WatchAnyServices_recv action target services states = Some out →
      out !! n = Some val →
      match action with
      | Entering => val = target
      | Exiting => val ≠ target
      | OtherAction _ => False
      end).
Proof.
  repeat apply conj.
  - intros out Hout. apply map_subseteq_spec. intros n val.
    rewrite (WatchAllServices_recv_lookup _ _ _ _ _ _ _ Hout).
    intros [_ Hf]. by eapply found_lookup.
  - intros out Hout. apply map_subseteq_spec. intros n val.
    rewrite (WatchAnyServices_recv_lookup _ _ _ _ _ _ _ Hout).
    intros [_ Hf]. by eapply found_lookup.
  - unfold WatchAllStates_recv. case_decide; [done|].
    destruct (Mode f).
    + apply map_empty_subseteq.
    + apply map_filter_subseteq.
    + apply map_filter_subseteq.
  - intros out n val [Hout|Hout].
    + rewrite (WatchAllServices_recv_lookup _ _ _ _ _ _ _ Hout).
      intros [_ Hf]. by eapply found_value.
    + rewrite (WatchAnyServices_recv_lookup _ _ _ _ _ _ _ Hout).
      intros [_ Hf]. by eapply found_value.
Qed.

(** X5: for a non-empty set of names, what [WatchAllStates] sends under
    [Include] and what it sends under [Exclude] split the snapshot: the two
    maps share no name and together they are the snapshot. *)
Theorem X5_Include_Exclude_split (names : gset string) (states : ServiceStates) :
  names ≠ ∅ →
  WatchAllStates_recv {| Mode := FilterMode.Include; Names := names |} states ##ₘ
    WatchAllStates_recv {| Mode := FilterMode.Exclude; Names := names |} states ∧
  WatchAllStates_recv {| Mode := FilterMode.Include; Names := names |} states ∪
    WatchAllStates_recv {| Mode := FilterMode.Exclude; Names := names |} states =
  states.
Proof.
  intros Hne. rewrite !WatchAllStates_recv_filtered by done. simpl. split.
  - apply map_disjoint_filter_complement.
  - apply map_filter_union_complement.
Qed.

Lemma X5_Include_Exclude_split_witness :
  WatchAllStates_recv {| Mode := FilterMode.Include; Names := {[ "a" ]} |} snapshotAB ##ₘ
    WatchAllStates_recv {| Mode := FilterMode.Exclude; Names := {[ "a" ]} |} snapshotAB ∧
  WatchAllStates_recv {| Mode := FilterMode.Include; Names := {[ "a" ]} |} snapshotAB ∪
    WatchAllStates_recv {| Mode := FilterMode.Exclude; Names := {[ "a" ]} |} snapshotAB =
  snapshotAB.
Proof.
  apply (X5_Include_Exclude_split {[ "a" ]} snapshotAB).
  intros Hempty. assert ("a" ∈ (∅ : gset string)) as Hin.
  { rewrite <- Hempty. by apply elem_of_singleton. }
  by apply not_elem_of_empty in Hin.
Defined.

(** X6: filtering twice is filtering once: what [WatchAllStates] sends for
    a snapshot it has itself sent under the same filter is that snapshot
    again. *)
Theorem X6_WatchAllStates_idempotent (f : ServiceFilter) (states : ServiceStates) :
  WatchAllStates_recv f (WatchAllStates_recv f states) =
  WatchAllStates_recv f states.
Proof.
  destruct (decide (Mode f = FilterMode.None ∨ Names f = ∅)) as [Hun|Hfil].
  { by rewrite !WatchAllStates_recv_unfiltered. }
  assert (Names f ≠ ∅) as Hnames by (intros ?; apply Hfil; by right).
  assert (Mode f ≠ FilterMode.None) as Hmode by (intros ?; apply Hfil; by left).
  rewrite !WatchAllStates_recv_filtered by done.
  destruct (Mode f); [done| |]; apply map_eq; intros n.
  - rewrite !filter_in_lookup. by case_decide.
  - rewrite !filter_out_lookup. by case_decide.
Qed.

(** ** More on the topic *)

Section TopicInvariant.
Import intracom.

Lemma Close_closedChans (t : topic) c :
  closed t = false →
  c ∈ closedChans (Close t).2 ↔
  c ∈ closedChans t ∨ ∃ g sub, subscribers t !! g = Some sub ∧ ch sub = c.
Proof.
  intros Hc. unfold Close. rewrite Hc. cbn [snd closedChans].
  apply (map_fold_weak_ind
           (λ (r : gset chan) (m : gmap string subscriber),
              c ∈ r ↔ c ∈ closedChans t ∨
                      ∃ g sub, m !! g = Some sub ∧ ch sub = c)).
  - split; [by left|]. intros [?|(g & sub & Hg & _)]; [done|].
    by rewrite lookup_empty in Hg.
  - intros g sub m r Hfresh IH. rewrite elem_of_union, elem_of_singleton, IH.
    split.
    + intros [->|[?|(g' & sub' & Hg' & <-)]].
      * right. exists g, sub. by rewrite lookup_insert_eq.
      * by left.
      * right. exists g', sub'. split; [|done].
        rewrite lookup_insert_ne; [done|]. by intros ->; rewrite Hfresh in Hg'.
    + intros [?|(g' & sub' & Hg' & <-)]; [by right; left|].
      destruct (decide (g = g')) as [->|Hne].
      * rewrite lookup_insert_eq in Hg'. injection Hg' as <-. by left.
      * rewrite lookup_insert_ne in Hg' by done. right. right. by exists g', sub'.
Qed.

Lemma topicInv_newTopic : topicInv newTopic.
Proof.
  split; [|split].
  - intros g sub Hg. simpl in Hg. by rewrite lookup_empty in Hg.
  - intros g g' sub sub' Hg. simpl in Hg. by rewrite lookup_empty in Hg.
  - intros c Hc. simpl in Hc. by apply not_elem_of_empty in Hc.
Qed.

Lemma topicInv_Subscribe cfg t : topicInv t → topicInv (Subscribe cfg t).2.
Proof.
  intros (Hlive & Hown & Hmade). unfold Subscribe. destruct (closed t); [done|].
  destruct (subscribers t !! ConsumerGroup cfg) as [sub|] eqn:Hg.
  { by destruct (ErrIfExists cfg). }
  cbn [snd]. split; [|split]; cbn [subscribers nextChan closedChans ch].
  - intros g sub'. destruct (decide (ConsumerGroup cfg = g)) as [<-|Hne].
    + rewrite lookup_insert_eq. intros [= <-]. cbn [ch]. split; [lia|].
      intros Hin. apply Hmade in Hin. lia.
    + rewrite lookup_insert_ne by done. intros Hsub.
      destruct (Hlive _ _ Hsub). split; [lia|done].
  - intros g g' sub1 sub2.
    destruct (decide (ConsumerGroup cfg = g)) as [<-|Hne];
      destruct (decide (ConsumerGroup cfg = g')) as [<-|Hne'];
      rewrite ?lookup_insert_eq, ?lookup_insert_ne by done; try done.
    + intros [= <-] Hsub2. cbn [ch]. destruct (Hlive _ _ Hsub2). lia.
    + intros Hsub1 [= <-]. cbn [ch]. destruct (Hlive _ _ Hsub1). lia.
    + apply Hown.
  - intros c Hin. apply Hmade in Hin. lia.
Qed.

Lemma topicInv_Unsubscribe g t : topicInv t → topicInv (Unsubscribe g t).2.
Proof.
  intros (Hlive & Hown & Hmade). unfold Unsubscribe. destruct (closed t); [done|].
  destruct (subscribers t !! g) as [sub|] eqn:Hg; [|done].
  cbn [snd]. split; [|split]; cbn [subscribers nextChan closedChans].
  - intros g' sub' Hsub. apply lookup_delete_Some in Hsub as [Hne Hsub].
    destruct (Hlive _ _ Hsub) as [Hlt Hopen]. split; [done|].
    rewrite elem_of_union, elem_of_singleton. intros [Heq|?]; [|done].
    apply Hne. by apply (Hown g g' sub sub').
  - intros g1 g2 sub1 sub2 [_ H1]%lookup_delete_Some [_ H2]%lookup_delete_Some.
    by apply Hown.
  - intros c. rewrite elem_of_union, elem_of_singleton.
    intros [->|?]; [|by apply Hmade]. by destruct (Hlive _ _ Hg).
Qed.

Lemma topicInv_Close t : topicInv t → topicInv (Close t).2.
Proof.
  intros (Hlive & Hown & Hmade). destruct (closed t) eqn:Hc.
  { unfold Close. by rewrite Hc. }
  split; [|split].
  - intros g sub Hg. unfold Close in Hg. rewrite Hc in Hg. simpl in Hg.
    by rewrite lookup_empty in Hg.
  - intros g g' sub sub' Hg. unfold Close in Hg. rewrite Hc in Hg. simpl in Hg.
    by rewrite lookup_empty in Hg.
  - intros c Hin. apply Close_closedChans in Hin; [|done].
    assert (nextChan (Close t).2 = nextChan t) as ->.
    { unfold Close. by rewrite Hc. }
    destruct Hin as [?|(g & sub & Hg & <-)]; [by apply Hmade|].
    by destruct (Hlive _ _ Hg).
Qed.

End TopicInvariant.

Section TopicMore.
Import intracom.

(** X7: a topic keeps its channels in order. From [newTopic] on, and after
    every [Subscribe], [Unsubscribe] and [Close], the channel of every group
    is open, no two groups share a channel, and only channels made by the
    topic are held or closed. *)
Theorem X7_topic_keeps_its_channels_in_order :
  topicInv newTopic ∧
  ∀ t, topicInv t →
       (∀ cfg, topicInv (Subscribe cfg t).2) ∧
       (∀ g, topicInv (Unsubscribe g t).2) ∧
       topicInv (Close t).2.
Proof.
  split; [apply topicInv_newTopic|]. intros t Hinv. split; [|split].
  - intros cfg. by apply topicInv_Subscribe.
  - intros g. by apply topicInv_Unsubscribe.
  - by apply topicInv_Close.
Qed.

(** X8: the channel that [Subscribe] answers is open, and after the call
    the group asked for is subscribed with that channel, and no other group
    is. *)
Theorem X8_Subscribe_answers_an_open_channel (cfg : SubscriberConfig)
    (t : topic) (c : chan) :
  topicInv t →
  (Subscribe cfg t).1 = inl c →
  (c ∉ closedChans (Subscribe cfg t).2) ∧
  (∃ sub, subscribers (Subscribe cfg t).2 !! ConsumerGroup cfg = Some sub ∧
          ch sub = c) ∧
  ∀ g sub, subscribers (Subscribe cfg t).2 !! g = Some sub →
           ch sub = c ↔ g = ConsumerGroup cfg.
Proof.
  intros Hinv Hc.
  destruct (topicInv_Subscribe cfg t Hinv) as (Hlive & Hown & _).
  assert (∃ sub, subscribers (Subscribe cfg t).2 !! ConsumerGroup cfg = Some sub
                 ∧ ch sub = c) as (sub & Hsub & Hch).
  { revert Hc. unfold Subscribe. destruct (closed t); [done|].
    destruct (subscribers t !! ConsumerGroup cfg) as [sub|] eqn:Hg.
    - destruct (ErrIfExists cfg); [done|]. intros [= <-]. by exists sub.
    - intros [= <-]. eexists. cbn [snd subscribers]. by rewrite lookup_insert_eq. }
  split; [|split].
  - rewrite <- Hch. by destruct (Hlive _ _ Hsub).
  - by exists sub.
  - intros g sub' Hsub'. split.
    + intros Hch'. apply (Hown g (ConsumerGroup cfg) sub' sub); congruence.
    + intros ->. congruence.
Qed.

Lemma X8_Subscribe_answers_an_open_channel_witness :
  (0 ∉ closedChans openTopic) ∧
  (∃ sub, subscribers openTopic !! "g" = Some sub ∧ ch sub = 0) ∧
  ∀ g sub, subscribers openTopic !! g = Some sub → ch sub = 0 ↔ g = "g".
Proof.
  apply (X8_Subscribe_answers_an_open_channel
           {| ConsumerGroup := "g"; ErrIfExists := false;
              BufferSize := 1; BufferPolicy_ := DropOldest |} newTopic 0).
  - apply topicInv_newTopic.
  - reflexivity.
Defined.

(** X9: subscribing again to a group that [Subscribe] has just answered,
    without [ErrIfExists], answers the same channel and leaves the topic as
    it is, whatever buffer size and policy the second configuration asks
    for. *)
Theorem X9_Subscribe_again_joins (cfg cfg' : SubscriberConfig) (t : topic)
    (c : chan) :
  ConsumerGroup cfg' = ConsumerGroup cfg →
  ErrIfExists cfg' = false →
  (Subscribe cfg t).1 = inl c →
  Subscribe cfg' (Subscribe cfg t).2 = (inl c, (Subscribe cfg t).2).
Proof.
  intros Hgroup Herr Hans. destruct (closed t) eqn:Hc.
  { by rewrite Subscribe_closed in Hans. }
  destruct (subscribers t !! ConsumerGroup cfg) as [sub|] eqn:Hg.
  - destruct (ErrIfExists cfg) eqn:He.
    { by rewrite (Subscribe_exists_err cfg t sub) in Hans. }
    rewrite (Subscribe_exists_join cfg t sub) in * by done.
    injection Hans as <-. cbn [snd].
    apply Subscribe_exists_join; [done|by rewrite Hgroup|done].
  - destruct (Subscribe_new cfg t Hc Hg) as (Hnew & Hsub & Hopen).
    rewrite Hnew in Hans. injection Hans as <-.
    by rewrite (Subscribe_exists_join cfg' _ {| ch := nextChan t; conf := cfg |})
      by (done || by rewrite Hgroup).
Qed.

Lemma X9_Subscribe_again_joins_witness :
  Subscribe {| ConsumerGroup := "g"; ErrIfExists := false;
               BufferSize := 64; BufferPolicy_ := Block |} openTopic =
  (inl 0, openTopic).
Proof.
  apply (X9_Subscribe_again_joins
           {| ConsumerGroup := "g"; ErrIfExists := false;
              BufferSize := 1; BufferPolicy_ := DropOldest |}
           {| ConsumerGroup := "g"; ErrIfExists := false;
              BufferSize := 64; BufferPolicy_ := Block |} newTopic 0);
    reflexivity.
Defined.

(** X10: on an open topic, subscribing a group that is not there and then
    unsubscribing it succeeds, gives back the groups there were, and closes
    the channel that [Subscribe] answered and no other. *)
Theorem X10_Subscribe_then_Unsubscribe (cfg : SubscriberConfig) (t : topic) :
  closed t = false →
  subscribers t !! ConsumerGroup cfg = None →
  (Subscribe cfg t).1 = inl (nextChan t) ∧
  (Unsubscribe (ConsumerGroup cfg) (Subscribe cfg t).2).1 = None ∧
  subscribers (Unsubscribe (ConsumerGroup cfg) (Subscribe cfg t).2).2 =
    subscribers t ∧
  closedChans (Unsubscribe (ConsumerGroup cfg) (Subscribe cfg t).2).2 =
    {[ nextChan t ]} ∪ closedChans t.
Proof.
  intros Hc Hg. unfold Subscribe. rewrite Hc, Hg. cbn [fst snd].
  unfold Unsubscribe. cbn [closed subscribers]. rewrite lookup_insert_eq.
  cbn [fst snd subscribers closedChans ch]. repeat split.
  by rewrite delete_insert_eq, delete_id.
Qed.

Lemma X10_Subscribe_then_Unsubscribe_witness :
  (Subscribe {| ConsumerGroup := "g"; ErrIfExists := true;
                BufferSize := 1; BufferPolicy_ := DropOldest |} newTopic).1 =
    inl (nextChan newTopic) ∧
  (Unsubscribe "g" (Subscribe {| ConsumerGroup := "g"; ErrIfExists := true;
                                 BufferSize := 1; BufferPolicy_ := DropOldest |}
                              newTopic).2).1 = None ∧
  subscribers (Unsubscribe "g" (Subscribe {| ConsumerGroup := "g"; ErrIfExists := true;
                                             BufferSize := 1; BufferPolicy_ := DropOldest |}
                                          newTopic).2).2 =
    subscribers newTopic ∧
  closedChans (Unsubscribe "g" (Subscribe {| ConsumerGroup := "g"; ErrIfExists := true;
                                             BufferSize := 1; BufferPolicy_ := DropOldest |}
                                          newTopic).2).2 =
    {[ nextChan newTopic ]} ∪ closedChans newTopic.
Proof.
  apply (X10_Subscribe_then_Unsubscribe
           {| ConsumerGroup := "g"; ErrIfExists := true;
              BufferSize := 1; BufferPolicy_ := DropOldest |} newTopic);
    reflexivity.
Defined.

(** X11: [Close] on an open topic removes every group and closes exactly
    the channels of the groups there were, besides those closed before;
    after it, closed or not before, [Subscribe], [Unsubscribe] and [Close]
    all fail and leave the topic as it is. *)
Theorem X11_Close_is_final (t : topic) :
  (closed t = false →
   (Close t).1 = None ∧
   subscribers (Close t).2 = ∅ ∧
   ∀ c, c ∈ closedChans (Close t).2 ↔
        c ∈ closedChans t ∨ ∃ g sub, subscribers t !! g = Some sub ∧ ch sub = c) ∧
  (∀ cfg, Subscribe cfg (Close t).2 =
          (inr (TopicClosed "subscribe"), (Close t).2)) ∧
  (∀ g, Unsubscribe g (Close t).2 =
        (Some (TopicClosed "unsubscribe"), (Close t).2)) ∧
  Close (Close t).2 = (Some AlreadyClosed, (Close t).2).
Proof.
  pose proof (Close_closes t) as Hclosed. split; [|split; [|split]].
  - intros Hc. split; [|split].
    + unfold Close. by rewrite Hc.
    + unfold Close. by rewrite Hc.
    + intros c. by apply Close_closedChans.
  - intros cfg. by apply Subscribe_closed.
  - intros g. by apply Unsubscribe_closed.
  - unfold Close at 1. by rewrite Hclosed.
Qed.

(** X12: an operation on one group leaves the others alone: [Subscribe]
    and [Unsubscribe] do not change the subscription of any other group,
    and no operation reopens a channel. *)
Theorem X12_other_groups_are_left_alone (cfg : SubscriberConfig) (g : string)
    (t : topic) :
  (∀ g', g' ≠ ConsumerGroup cfg →
         subscribers (Subscribe cfg t).2 !! g' = subscribers t !! g') ∧
  (∀ g', g' ≠ g →
         subscribers (Unsubscribe g t).2 !! g' = subscribers t !! g') ∧
  closedChans t ⊆ closedChans (Subscribe cfg t).2 ∧
  closedChans t ⊆ closedChans (Unsubscribe g t).2 ∧
  closedChans t ⊆ closedChans (Close t).2.
Proof.
  repeat apply conj.
  - intros g' Hne. unfold Subscribe. destruct (closed t); [done|].
    destruct (subscribers t !! ConsumerGroup cfg).
    + by destruct (ErrIfExists cfg).
    + cbn [snd subscribers]. by rewrite lookup_insert_ne.
  - intros g' Hne. unfold Unsubscribe. destruct (closed t); [done|].
    destruct (subscribers t !! g); [|done].
    cbn [snd subscribers]. by rewrite lookup_delete_ne.
  - unfold Subscribe. destruct (closed t); [done|].
    destruct (subscribers t !! ConsumerGroup cfg); [by destruct (ErrIfExists cfg)|done].
  - unfold Unsubscribe. destruct (closed t); [done|].
    destruct (subscribers t !! g); [|done].
    cbn [snd closedChans]. apply union_subseteq_r.
  - destruct (closed t) eqn:Hc.
    + unfold Close. by rewrite Hc.
    + intros c Hin. apply Close_closedChans; [done|]. by left.
Qed.

End TopicMore.

(** ** More on the continuous manager *)

Section ManageMore.
Context {R : Type}.
Variable m : RunContinuousManager.
Variable sctx : serviceContext.
Variable ds : DaemonService R.

Lemma afterLoop_invocations hasStopped r :
  invocations (afterLoop sctx ds hasStopped r).1 =
  if hasStopped then [] else [CbStop].
Proof.
  unfold afterLoop. destruct hasStopped; [done|].
  destruct (Stop (Runner ds) r) as [[err|v] r']; [|done].
  cbn. fold (invocations (errorLog sctx err ++ [updateState (ds_Name ds) StateExit])).
  by rewrite invocations_app, errorLog_invocations.
Qed.

Lemma loop_inOrder sched : ∀ prev state hasStopped r,
  orderInv prev state hasStopped →
  inOrder prev (invocations (loop m sctx ds state hasStopped r sched).1) = true.
Proof.
  assert (∀ prev hs r, hs = bool_decide (prev = Some CbStop) →
            inOrder prev (invocations (afterLoop sctx ds hs r).1) = true)
    as Hafter.
  { intros prev hs r ->. rewrite afterLoop_invocations.
    case_bool_decide as Hprev; [done|]. cbn.
    destruct prev as [[]|]; try done. }
  induction sched as [|sel sched IH]; intros prev state hs r [Hhs Hstate];
    (destruct (decide (state = StateExit)) as [->|Hne];
     [rewrite loop_Exit; by apply Hafter|]).
  - by rewrite loop_nil.
  - rewrite loop_cons by done. destruct sel.
    + rewrite body_ctxDone.
      destruct (loop m sctx ds StateExit hs r sched) as [tr' e'] eqn:Hrest.
      cbn [fst]. cbn.
      specialize (IH prev StateExit hs r). rewrite Hrest in IH.
      apply IH. split; [done|by left].
    + destruct (body_timeoutC m sctx ds state hs r Hne)
        as (cb & o & r' & Hcb & Ho & Hbody).
      destruct Hstate as [?|(cb0 & Hcb0 & Hfollow)]; [done|].
      assert (cb0 = cb) as -> by (destruct cb0, cb; simpl in *; congruence).
      destruct o as [err|v]; rewrite Hbody.
      * set (next := tableNext state false (failed (Returns err))) in *.
        specialize (IH (Some cb) next (bool_decide (cb = CbStop)) r').
        destruct (loop m sctx ds next _ r' sched) as [tr' e'].
        cbn [fst] in *. cbn [app invocations omap list_omap].
        fold (invocations ((errorLog sctx err ++
                [timerReset (transitionTimeout m next)]) ++ tr')).
        rewrite !invocations_app, errorLog_invocations. cbn.
        rewrite Hfollow. cbn. apply IH. split.
        { apply bool_decide_ext. split; [by intros ->|by intros [= ->]]. }
        right. unfold next. subst state.
        destruct cb, err; cbn; eauto using stateOf.
        all: first [by exists CbInit | by exists CbIdle
                   | by exists CbRun | by exists CbStop].
      * cbn. by rewrite Hfollow.
Qed.


(** The records logged by the loop. *)
Lemma loop_logged sched : ∀ state hasStopped r,
  Forall (managerRecord sctx)
         (logged (loop m sctx ds state hasStopped r sched).1).
Proof.
  assert (∀ msg, managerRecord sctx (Log sctx LevelError msg [])) as Hrec.
  { intros msg. by repeat split. }
  assert (∀ err, Forall (managerRecord sctx) (logged (errorLog sctx err)))
    as Herr.
  { intros [e|]; [|constructor]. cbn. constructor; [apply Hrec|constructor]. }
  assert (∀ hs r, Forall (managerRecord sctx)
                         (logged (afterLoop sctx ds hs r).1)) as Hafter.
  { intros hs r. unfold afterLoop. destruct hs; [constructor|].
    destruct (Stop (Runner ds) r) as [[err|v] r']; [|constructor]. cbn.
    fold (logged (errorLog sctx err ++ [updateState (ds_Name ds) StateExit])).
    unfold logged. rewrite omap_app. apply Forall_app. split; [apply Herr|].
    constructor. }
  induction sched as [|sel sched IH]; intros state hs r;
    (destruct (decide (state = StateExit)) as [->|Hne];
     [rewrite loop_Exit; by apply Hafter|]).
  - rewrite loop_nil by done. constructor.
  - rewrite loop_cons by done. destruct sel.
    + rewrite body_ctxDone. specialize (IH StateExit hs r).
      by destruct (loop m sctx ds StateExit hs r sched) as [tr' e'].
    + destruct (body_timeoutC m sctx ds state hs r Hne)
        as (cb & o & r' & Hcb & Ho & Hbody).
      destruct o as [err|v]; rewrite Hbody; [|constructor].
      set (next := tableNext state false (failed (Returns err))) in *.
      specialize (IH next (bool_decide (cb = CbStop)) r').
      destruct (loop m sctx ds next _ r' sched) as [tr' e'].
      cbn [fst] in *. cbn [app logged omap list_omap].
      fold (logged ((errorLog sctx err ++
              [timerReset (transitionTimeout m next)]) ++ tr')).
      unfold logged. rewrite !omap_app. repeat (apply Forall_app; split).
      * apply Herr.
      * constructor.
      * apply IH.
Qed.

(** With a runner that never fails the loop logs nothing and never ends by
    a panic. *)
Lemma loop_neverFails sched : ∀ state hasStopped r,
  neverFails (Runner ds) →
  logged (loop m sctx ds state hasStopped r sched).1 = [] ∧
  ∀ v, (loop m sctx ds state hasStopped r sched).2 ≠ Recovered v.
Proof.
  intros state hs r Hok. revert state hs r.
  assert (∀ hs r, logged (afterLoop sctx ds hs r).1 = [] ∧
                  ∀ v, (afterLoop sctx ds hs r).2 ≠ Recovered v) as Hafter.
  { intros hs r. unfold afterLoop. destruct hs; [done|].
    destruct (Hok r) as (_ & _ & _ & Hstop).
    destruct (Stop (Runner ds) r) as [o r']. simpl in Hstop. by subst o. }
  induction sched as [|sel sched IH]; intros state hs r;
    (destruct (decide (state = StateExit)) as [->|Hne];
     [rewrite loop_Exit; by apply Hafter|]).
  - by rewrite loop_nil.
  - rewrite loop_cons by done. destruct sel.
    + rewrite body_ctxDone. specialize (IH StateExit hs r).
      by destruct (loop m sctx ds StateExit hs r sched) as [tr' e'].
    + destruct (body_timeoutC m sctx ds state hs r Hne)
        as (cb & o & r' & Hcb & Ho & Hbody).
      assert (o = Returns None) as ->.
      { destruct (Hok r) as (Hi & Hd & Hr & Hs).
        destruct state; simpl in Ho; congruence. }
      rewrite Hbody.
      set (next := tableNext state false (failed (Returns None))) in *.
      specialize (IH next (bool_decide (cb = CbStop)) r').
      by destruct (loop m sctx ds next _ r' sched) as [tr' e'].
Qed.

End ManageMore.

Section ManageDelays.
Context {R : Type}.
Variable m m' : RunContinuousManager.
Variable sctx : serviceContext.
Variable ds : DaemonService R.

(** The delays of the manager change the timer events only. *)
Lemma loop_delays sched : ∀ state hasStopped r,
  visible (loop m sctx ds state hasStopped r sched).1 =
  visible (loop m' sctx ds state hasStopped r sched).1 ∧
  (loop m sctx ds state hasStopped r sched).2 =
  (loop m' sctx ds state hasStopped r sched).2.
Proof.
  induction sched as [|sel sched IH]; intros state hs r;
    (destruct (decide (state = StateExit)) as [->|Hne];
     [by rewrite !loop_Exit|]).
  - by rewrite !loop_nil.
  - rewrite !loop_cons by done. unfold body. destruct sel.
    + specialize (IH StateExit hs r).
      destruct (loop m sctx ds StateExit hs r sched) as [tr1 e1].
      destruct (loop m' sctx ds StateExit hs r sched) as [tr2 e2].
      cbn [fst snd] in *. destruct IH as [Htr ->]. split; [|done].
      by rewrite !(visible_app [_]), Htr.
    + destruct (switchState sctx ds state _ r) as [s' hs' r' evs|v evs];
        [|done].
      specialize (IH s' hs' r').
      destruct (loop m sctx ds s' hs' r' sched) as [tr1 e1].
      destruct (loop m' sctx ds s' hs' r' sched) as [tr2 e2].
      cbn [fst snd] in *. destruct IH as [Htr ->]. split; [|done].
      rewrite !(visible_app (_ :: _)), Htr. f_equal.
      cbn [visible]. destruct (isTimer _); by rewrite !visible_app.
Qed.

End ManageDelays.

Section ManageRuns.
Context {R : Type}.
Variable m : RunContinuousManager.
Variable sctx : serviceContext.
Variable ds : DaemonService R.

Lemma Manage_invocations r sched :
  invocations (Manage m sctx ds r sched).1 =
  invocations (loop m sctx ds StateInit false r sched).1.
Proof.
  rewrite Manage_loop. cbn [fst invocations omap list_omap].
  fold (invocations ((loop m sctx ds StateInit false r sched).1 ++
                     deferred sctx (loop m sctx ds StateInit false r sched).2)).
  rewrite invocations_app.
  by destruct (loop m sctx ds StateInit false r sched).2; rewrite app_nil_r.
Qed.

Lemma Manage_logged r sched :
  logged (Manage m sctx ds r sched).1 =
  logged (loop m sctx ds StateInit false r sched).1 ++
  logged (deferred sctx (loop m sctx ds StateInit false r sched).2).
Proof.
  rewrite Manage_loop. cbn [fst logged omap list_omap].
  fold (logged ((loop m sctx ds StateInit false r sched).1 ++
                deferred sctx (loop m sctx ds StateInit false r sched).2)).
  unfold logged. by rewrite omap_app.
Qed.

Lemma Manage_shape_proj (r : R) (sched : list selected) :
  ∃ pre post,
    visible (Manage m sctx ds r sched).1 =
      pre ++ post ++ visible (deferred sctx (Manage m sctx ds r sched).2) ∧
    (∀ prev, reportedFirst prev pre = true) ∧
    (StateExit ∉ reports pre) ∧
    match (Manage m sctx ds r sched).2 with
    | Looping _ _ _ => post = []
    | Returned _ =>
        if lastStop false pre
        then post = [updateState (ds_Name ds) StateExit]
        else ∃ err, post = invoke CbStop :: errorLog sctx err ++
                           [updateState (ds_Name ds) StateExit]
    | Recovered v =>
        (post = [] ∧ ∃ pre0 cb, pre = pre0 ++ [invoke cb]) ∨
        (lastStop false pre = false ∧ post = [invoke CbStop])
    end.
Proof.
  destruct (Manage m sctx ds r sched) as [tr e] eqn:HM.
  by apply (Manage_shape m sctx ds r sched).
Qed.

(** X13: [Manage] returns once the [select] has found the context
    cancelled, from its last line or from the deferred [recover]; and it
    reaches its last line only if the [select] has found the context
    cancelled. *)
Theorem X13_Manage_returns_when_cancelled (r : R) (sched : list selected) :
  (ctxDone ∈ sched →
   (∃ r', (Manage m sctx ds r sched).2 = Returned r') ∨
   (∃ v, (Manage m sctx ds r sched).2 = Recovered v)) ∧
  (∀ r', (Manage m sctx ds r sched).2 = Returned r' → ctxDone ∈ sched).
Proof.
  split; [apply Manage_ends|]. intros r' Hret. rewrite Manage_loop in Hret.
  by destruct (loop_Returned_ctxDone _ _ _ _ _ _ _ _ Hret).
Qed.

(** X14: when [Manage] reaches its last line it has reported Exit exactly
    once, as its last report; when it has not (the loop goes on, or a panic
    was recovered) it has not reported Exit at all. *)
Theorem X14_Exit_is_the_last_report (r : R) (sched : list selected) :
  match (Manage m sctx ds r sched).2 with
  | Returned _ =>
      ∃ l, reports (Manage m sctx ds r sched).1 = l ++ [StateExit] ∧
           StateExit ∉ l
  | _ => StateExit ∉ reports (Manage m sctx ds r sched).1
  end.
Proof. apply Manage_reports_Exit. Qed.

(** X15: in every run of [Manage], however it ends, the trace (timer left
    out) is made of the passes through the loop, in which every callback
    invoked comes right after the report of its state and Exit is not
    reported, followed by the exit: when the last line is reached, one more
    [Stop] exactly when the last callback invoked was not [Stop], then the
    report of Exit. *)
Theorem X15_report_then_callback_then_exit (r : R) (sched : list selected) :
  ∃ pre post,
    visible (Manage m sctx ds r sched).1 =
      pre ++ post ++ visible (deferred sctx (Manage m sctx ds r sched).2) ∧
    (∀ prev, reportedFirst prev pre = true) ∧
    (StateExit ∉ reports pre) ∧
    match (Manage m sctx ds r sched).2 with
    | Looping _ _ _ => post = []
    | Returned _ =>
        if lastStop false pre
        then post = [updateState (ds_Name ds) StateExit]
        else ∃ err, post = invoke CbStop :: errorLog sctx err ++
                           [updateState (ds_Name ds) StateExit]
    | Recovered v =>
        (post = [] ∧ ∃ pre0 cb, pre = pre0 ++ [invoke cb]) ∨
        (lastStop false pre = false ∧ post = [invoke CbStop])
    end.
Proof. apply Manage_shape_proj. Qed.

(** X16: the callbacks are invoked in the order of the cycle: [Init] first
    or right after [Stop], [Idle] right after [Init], [Run] right after
    [Idle], and [Stop] after any of them or first, never twice in a row. When
    [Manage] reaches its last line the last callback invoked is [Stop]. *)
Theorem X16_callbacks_in_cycle_order (r : R) (sched : list selected) :
  inOrder None (invocations (Manage m sctx ds r sched).1) = true ∧
  (∀ r', (Manage m sctx ds r sched).2 = Returned r' →
         last (invocations (Manage m sctx ds r sched).1) = Some CbStop).
Proof.
  split.
  - rewrite Manage_invocations. apply loop_inOrder.
    split; [done|]. right. by exists CbInit.
  - intros r' Hret.
    destruct (Manage_shape_proj r sched) as (pre & post & Hvis & _ & _ & He).
    rewrite Hret in *. rewrite <- invocations_visible, Hvis.
    rewrite !invocations_app. cbn [deferred visible isTimer invocations omap list_omap].
    rewrite app_nil_r. unfold lastStop in He.
    destruct (last (invocations pre)) as [cb|] eqn:Hlast.
    + case_bool_decide as Hcb.
      * subst post cb. cbn. by rewrite app_nil_r.
      * destruct He as [err ->]. cbn.
        fold (invocations (errorLog sctx err ++ [updateState (ds_Name ds) StateExit])).
        rewrite invocations_app, errorLog_invocations. cbn.
        by rewrite last_snoc.
    + destruct He as [err ->]. cbn.
      fold (invocations (errorLog sctx err ++ [updateState (ds_Name ds) StateExit])).
      rewrite invocations_app, errorLog_invocations. cbn.
      by rewrite last_snoc.
Qed.

End ManageRuns.

(** X17: when a callback panics, [Manage] still returns: nothing is invoked
    or reported after the panicking call, the last thing done is to log, at
    the error level, the message made of the recovered value, and Exit is
    not reported. *)
Theorem X17_panic_is_recovered_and_logged {R : Type} (m : RunContinuousManager)
    (sctx : serviceContext) (ds : DaemonService R) (r : R)
    (sched : list selected) (v : string) :
  (Manage m sctx ds r sched).2 = Recovered v →
  (∃ tr0 cb,
      visible (Manage m sctx ds r sched).1 =
      tr0 ++ [invoke cb;
              logSend (Log sctx LevelError ("recovered from a panic: " +:+ v) [])]) ∧
  StateExit ∉ reports (Manage m sctx ds r sched).1.
Proof.
  intros He. destruct (Manage m sctx ds r sched) as [tr e] eqn:HM.
  cbn [fst snd] in *. subst e. by apply (Manage_Recovered m sctx ds r sched).
Qed.

Lemma X17_panic_is_recovered_and_logged_witness :
  (∃ tr0 cb,
      visible (Manage NewDefaultManager svcContext
                      (service mockPanicService RunUntilStoppedPolicy) ()
                      [timeoutC; timeoutC; timeoutC]).1 =
      tr0 ++ [invoke cb;
              logSend (Log svcContext LevelError
                           ("recovered from a panic: " +:+ "intentional panic") [])]) ∧
  StateExit ∉ reports (Manage NewDefaultManager svcContext
                              (service mockPanicService RunUntilStoppedPolicy) ()
                              [timeoutC; timeoutC; timeoutC]).1.
Proof.
  apply (X17_panic_is_recovered_and_logged NewDefaultManager svcContext
           (service mockPanicService RunUntilStoppedPolicy) ()
           [timeoutC; timeoutC; timeoutC] "intentional panic").
  reflexivity.
Defined.

(** X18: every record that [Manage] logs is at the error level and carries
    the name and the fields of the service context, and no other field. *)
Theorem X18_Manage_logs_errors_only {R : Type} (m : RunContinuousManager)
    (sctx : serviceContext) (ds : DaemonService R) (r : R)
    (sched : list selected) :
  Forall (managerRecord sctx) (logged (Manage m sctx ds r sched).1).
Proof.
  rewrite Manage_logged. apply Forall_app. split; [apply loop_logged|].
  destruct (loop m sctx ds StateInit false r sched).2; cbn;
    repeat constructor.
Qed.

(** X19: with a runner none of whose callbacks returns an error or panics,
    [Manage] logs nothing, never ends by a recovered panic, and reaches its
    last line once the [select] has found the context cancelled. *)
Theorem X19_runner_that_never_fails {R : Type} (m : RunContinuousManager)
    (sctx : serviceContext) (ds : DaemonService R) (r : R)
    (sched : list selected) :
  neverFails (Runner ds) →
  logged (Manage m sctx ds r sched).1 = [] ∧
  (∀ v, (Manage m sctx ds r sched).2 ≠ Recovered v) ∧
  (ctxDone ∈ sched → ∃ r', (Manage m sctx ds r sched).2 = Returned r').
Proof.
  intros Hok.
  destruct (loop_neverFails m sctx ds sched StateInit false r Hok)
    as [Hlog Hnever].
  assert (∀ v, (Manage m sctx ds r sched).2 ≠ Recovered v) as Hnever'.
  { intros v. rewrite Manage_loop. apply Hnever. }
  split; [|split; [done|]].
  - rewrite Manage_logged, Hlog.
    destruct (loop m sctx ds StateInit false r sched).2 as [r'|v|s h r'] eqn:He;
      [done| |done].
    by destruct (Hnever v).
  - intros Hin.
    destruct (Manage_ends m sctx ds r sched Hin) as [?|[v Hv]]; [done|].
    by destruct (Hnever' v).
Qed.

Lemma X19_runner_that_never_fails_witness :
  logged (Manage NewDefaultManager svcContext
                 (service steadyService RunUntilStoppedPolicy) ()
                 [timeoutC; ctxDone]).1 = [] ∧
  (∀ v, (Manage NewDefaultManager svcContext
                (service steadyService RunUntilStoppedPolicy) ()
                [timeoutC; ctxDone]).2 ≠ Recovered v) ∧
  (ctxDone ∈ [timeoutC; ctxDone] →
   ∃ r', (Manage NewDefaultManager svcContext
                 (service steadyService RunUntilStoppedPolicy) ()
                 [timeoutC; ctxDone]).2 = Returned r').
Proof.
  apply (X19_runner_that_never_fails NewDefaultManager svcContext
           (service steadyService RunUntilStoppedPolicy) () [timeoutC; ctxDone]).
  intros []. by repeat split.
Defined.

(** X20: the delays of the manager and the run policy of the service decide
    nothing but the timer: with any two managers and any options, the same
    runner and the same choices of the [select] give the same reports,
    callbacks and logs, in the same order, and the same ending. *)
Theorem X20_delays_and_policy_change_timers_only {R : Type}
    (m m' : RunContinuousManager) (sctx : serviceContext)
    (ds : DaemonService R) (opts : ServiceOpts) (r : R)
    (sched : list selected) :
  visible (Manage m sctx
                  {| ds_Name := ds_Name ds; Runner := Runner ds; Options := opts |}
                  r sched).1 =
  visible (Manage m' sctx ds r sched).1 ∧
  (Manage m sctx
          {| ds_Name := ds_Name ds; Runner := Runner ds; Options := opts |}
          r sched).2 =
  (Manage m' sctx ds r sched).2.
Proof.
  rewrite Manage_policy_irrelevant, !Manage_loop. cbn [fst snd].
  destruct (loop_delays m m' sctx ds sched StateInit false r) as [Htr He].
  split; [|done]. cbn [visible isTimer]. by rewrite !visible_app, Htr, He.
Qed.

(** ** More on the service context *)


(** ** Levels and notify states *)

Section LevelFacts.
Import log.

Lemma named_cases (l : Level) :
  named l →
  l = LevelEmergency ∨ l = LevelAlert ∨ l = LevelCritical ∨ l = LevelError ∨
  l = LevelWarning ∨ l = LevelNotice ∨ l = LevelInfo ∨ l = LevelDebug.
Proof.
  unfold named, LevelEmergency, LevelAlert, LevelCritical, LevelError,
    LevelWarning, LevelNotice, LevelInfo, LevelDebug. lia.
Qed.

Lemma Level_String_unnamed (l : Level) : ¬ named l → Level_String l = "UNKNOWN".
Proof.
  unfold named. intros Hl. unfold Level_String.
  repeat case_decide; try done; exfalso;
    unfold LevelEmergency, LevelAlert, LevelCritical, LevelError,
      LevelWarning, LevelNotice, LevelInfo, LevelDebug in *; lia.
Qed.

Lemma ToUpperAscii_keepsNames : keepsNames ToUpperAscii.
Proof.
  intros l. destruct (decide (named l)) as [Hl|Hl].
  - destruct (named_cases l Hl) as [->|[->|[->|[->|[->|[->|[->| ->]]]]]]];
      by vm_compute.
  - by rewrite Level_String_unnamed.
Qed.

Lemma named_levels :
  named LevelEmergency ∧ named LevelAlert ∧ named LevelCritical ∧
  named LevelError ∧ named LevelWarning ∧ named LevelNotice ∧
  named LevelInfo ∧ named LevelDebug.
Proof.
  unfold named, LevelEmergency, LevelAlert, LevelCritical, LevelError,
    LevelWarning, LevelNotice, LevelInfo, LevelDebug. lia.
Qed.

Lemma LevelFromString_cases (ToUpper : string → string) (s : string) :
  (∃ l, named l ∧ ToUpper s = Level_String l ∧ LevelFromString ToUpper s = l) ∨
  (LevelFromString ToUpper s = levelUnknown ∧
   ∀ l, named l → ToUpper s ≠ Level_String l).
Proof.
  destruct named_levels as (H0 & H1 & H2 & H3 & H4 & H5 & H6 & H7).
  unfold LevelFromString.
  destruct (decide (ToUpper s = "EMERGENCY")) as [Heq|N0];
    [left; by exists LevelEmergency|].
  destruct (decide (ToUpper s = "ALERT")) as [Heq|N1];
    [left; by exists LevelAlert|].
  destruct (decide (ToUpper s = "CRITICAL")) as [Heq|N2];
    [left; by exists LevelCritical|].
  destruct (decide (ToUpper s = "ERROR")) as [Heq|N3];
    [left; by exists LevelError|].
  destruct (decide (ToUpper s = "WARNING")) as [Heq|N4];
    [left; by exists LevelWarning|].
  destruct (decide (ToUpper s = "NOTICE")) as [Heq|N5];
    [left; by exists LevelNotice|].
  destruct (decide (ToUpper s = "INFO")) as [Heq|N6];
    [left; by exists LevelInfo|].
  destruct (decide (ToUpper s = "DEBUG")) as [Heq|N7];
    [left; by exists LevelDebug|].
  right. split; [done|]. intros l Hl Heq.
  destruct (named_cases l Hl) as [->|[->|[->|[->|[->|[->|[->| ->]]]]]]];
    vm_compute in Heq; congruence.
Qed.

End LevelFacts.

(** X22: the name of a level reads back as the level: for the eight levels
    that have a name, [LevelFromString] of [String] is the level itself, and
    for every other value of the type it is [levelUnknown]. *)
Theorem X22_Level_String_reads_back (ToUpper : string → string) :
  log.keepsNames ToUpper →
  (∀ l, log.named l → log.LevelFromString ToUpper (log.Level_String l) = l) ∧
  (∀ l, ¬ log.named l →
        log.LevelFromString ToUpper (log.Level_String l) = log.levelUnknown).
Proof.
  intros Hkeep. split; intros l Hl; unfold log.LevelFromString; rewrite Hkeep.
  - destruct (named_cases l Hl) as [->|[->|[->|[->|[->|[->|[->| ->]]]]]]];
      by vm_compute.
  - by rewrite Level_String_unnamed.
Qed.

Lemma X22_Level_String_reads_back_witness :
  (∀ l, log.named l →
        log.LevelFromString ToUpperAscii (log.Level_String l) = l) ∧
  (∀ l, ¬ log.named l →
        log.LevelFromString ToUpperAscii (log.Level_String l) = log.levelUnknown).
Proof.
  apply (X22_Level_String_reads_back ToUpperAscii).
  apply ToUpperAscii_keepsNames.
Defined.

(** X23: [LevelFromString] answers a level from [levelUnknown] (-1) to
    [LevelDebug] (7); when the answer is not [levelUnknown] its name is the
    string given, in upper case; and the answer is [levelUnknown] exactly
    when the string in upper case is the name of none of the eight
    levels. *)
Theorem X23_LevelFromString_range (ToUpper : string → string) (s : string) :
  (-1 ≤ log.LevelFromString ToUpper s ≤ 7)%Z ∧
  (log.LevelFromString ToUpper s ≠ log.levelUnknown →
   log.Level_String (log.LevelFromString ToUpper s) = ToUpper s) ∧
  (log.LevelFromString ToUpper s = log.levelUnknown ↔
   ∀ l, log.named l → ToUpper s ≠ log.Level_String l).
Proof.
  destruct (LevelFromString_cases ToUpper s)
    as [(l & Hl & Hname & ->)|[-> Hnone]].
  - split; [unfold log.named in Hl; lia|]. split; [done|]. split.
    + intros ->. unfold log.named, log.levelUnknown in Hl. lia.
    + intros Hnone. by destruct (Hnone l Hl).
  - split; [by vm_compute|]. split; [done|]. done.
Qed.

(** Upper and lower case are read alike. *)
Example LevelFromString_mixed_case :
  log.LevelFromString ToUpperAscii "wArning" = log.LevelWarning ∧
  log.LevelFromString ToUpperAscii "warn" = log.levelUnknown.
Proof. by vm_compute. Qed.

(** X24: the six notify states have six different names, none of them
    empty, and every other value of the type has the empty name. *)
Theorem X24_NotifyState_names (s : NotifyState) :
  (s ≤ NotifyStateAlive → NotifyState_String s ≠ "") ∧
  (NotifyStateAlive < s → NotifyState_String s = "") ∧
  (∀ s', s ≤ NotifyStateAlive →
         NotifyState_String s = NotifyState_String s' → s = s').
Proof.
  unfold NotifyStateAlive. split; [|split].
  - intros Hs. do 6 (destruct s as [|s]; [done|]). lia.
  - intros Hs. do 6 (destruct s as [|s]; [lia|]). done.
  - intros s' Hs.
    do 6 (destruct s as [|s];
          [do 6 (destruct s' as [|s']; [done|]); done|]).
    lia.
Qed.

(** ** The service configuration *)

Section ConfigFacts.
Import config.

Lemma calls_keep_channels_and_flag (l : list call) : ∀ cfg,
  ShutdownC cfg = isShutdown cfg → StateC cfg = isShutdown cfg →
  ∃ cfg', calls l cfg = Some cfg' ∧
          ShutdownC cfg' = isShutdown cfg' ∧ StateC cfg' = isShutdown cfg' ∧
          isShutdown cfg' =
            (isShutdown cfg || bool_decide (callShutdown ∈ l)) ∧
          cfg_name cfg' = cfg_name cfg ∧ opts cfg' = opts cfg.
Proof.
  induction l as [|c l IH]; intros cfg H1 H2.
  - exists cfg. repeat split; try done.
    rewrite bool_decide_eq_false_2; [by rewrite orb_false_r|].
    by intros ?%elem_of_nil.
  - destruct c as [|value]; cbn [calls].
    + destruct (isShutdown cfg) eqn:Hs.
      * assert (shutdown cfg = Some cfg) as ->.
        { unfold shutdown. by rewrite Hs. }
        destruct (IH cfg) as (cfg' & -> & ? & ? & Hflag & ? & ?);
          [congruence|congruence|].
        exists cfg'. rewrite Hs in Hflag. by repeat split.
      * assert (shutdown cfg =
                Some {| cfg_name := cfg_name cfg; opts := opts cfg;
                        ShutdownC := true; StateC := true;
                        isStopped := isStopped cfg; isShutdown := true |}) as ->.
        { unfold shutdown, close. by rewrite Hs, H1, H2. }
        destruct (IH {| cfg_name := cfg_name cfg; opts := opts cfg;
                        ShutdownC := true; StateC := true;
                        isStopped := isStopped cfg; isShutdown := true |}
                     eq_refl eq_refl)
          as (cfg' & -> & ? & ? & Hflag & ? & ?).
        exists cfg'. cbn in *. do 3 (split; [done|]). split; [|done].
        rewrite Hflag. symmetry. apply bool_decide_eq_true_2. by left.
    + destruct (IH (setIsStopped value cfg) H1 H2)
        as (cfg' & -> & ? & ? & Hflag & ? & ?).
      exists cfg'. cbn [setIsStopped isShutdown cfg_name opts] in *.
      do 3 (split; [done|]). split; [|done]. rewrite Hflag.
      f_equal. apply bool_decide_ext. rewrite elem_of_cons.
      split; [by right|]. by intros [?|?].
Qed.

End ConfigFacts.

(** X25: a service configuration made by [NewServiceConfig] can be shut
    down and have its stopped flag set in any order and any number of times:
    no call closes a closed channel (none panics), the two channels are
    closed exactly when [shutdown] has been called at least once, and name
    and options stay what they were. *)
Theorem X25_shutdown_closes_once (name : string)
    (options : list (ServiceOpts → ServiceOpts)) (l : list config.call) :
  ∃ cfg, config.calls l (config.NewServiceConfig name options) = Some cfg ∧
         config.ShutdownC cfg = bool_decide (config.callShutdown ∈ l) ∧
         config.StateC cfg = bool_decide (config.callShutdown ∈ l) ∧
         config.isShutdown cfg = bool_decide (config.callShutdown ∈ l) ∧
         config.cfg_name cfg = name ∧
         config.opts cfg = config.opts (config.NewServiceConfig name options).
Proof.
  destruct (calls_keep_channels_and_flag l (config.NewServiceConfig name options))
    as (cfg & Hcalls & H1 & H2 & H3 & H4 & H5); [done|done|].
  exists cfg. cbn in H3. rewrite H1, H2, H3. by repeat split.
Qed.
